(** * libDAI: joint-state indexing of [VarSet] and the [ExactInf] interface

    A shallow embedding of [include/dai/varset.h] (the queries [nrStates],
    [calcState] and [calcStates] of class [VarSet]) and of the inline
    members of class [ExactInf] in [include/dai/exactinf.h].

    - [size_t] values are naturals below [2 ^ size_bits]; every [size_t]
      multiplication and addition of the source is followed by an explicit
      reduction modulo [2 ^ size_bits].
    - A [Var] carries a [long] label and a [size_t] number of states.
    - [std::map<Var, size_t>] orders and identifies its keys with
      [Var::operator<], which compares labels, hence it is a finite map on
      labels.
    - A member function that can throw returns a [result]. *)

From Stdlib Require Import Ascii.
From Stdlib Require QArith.
From stdpp Require Import base numbers option list gmap fin_maps.
From stdpp Require Import strings sorting pretty.

Open Scope N_scope.

(** ** Outcomes of a call *)

(** The conditions of [dai/exceptions.h] that the embedded code raises. *)
Inductive Condition : Type :=
  | NOT_IMPLEMENTED
  | INDEX_OUT_OF_RANGE.

(** A call returns normally, throws a condition, or has no defined
    behaviour (a [size_t] division by zero, a vector read out of bounds). *)
Inductive result (A : Type) : Type :=
  | Ok (a : A)
  | Throw (c : Condition)
  | Undefined.

Arguments Ok {A} a.
Arguments Throw {A} c.
Arguments Undefined {A}.

(** Sequencing: a condition or an undefined step ends the call. *)
#[global] Instance result_ret : MRet result := λ A a, Ok a.

#[global] Instance result_bind : MBind result := λ A B f r,
  match r with
  | Ok a => f a
  | Throw c => Throw c
  | Undefined => Undefined
  end.

(** Modelled from the spec: the macro [DAI_ASSERT] of [dai/exceptions.h],
    which is not among the sources.  The only assertion of [varset.h] is the
    one closing [calcStates]; the specification names the condition it
    signals [IndexOutOfRange]. *)
Definition DAI_ASSERT (condition : bool) : result unit :=
  if condition then Ok tt else Throw INDEX_OUT_OF_RANGE.

(** ** Variables and variable sets *)

(** [class Var]: [label()] is a [long], [states()] a [size_t]. *)
Record Var : Type := mkVar { label : Z; states : N }.

(** [class VarSet : public SmallSet<Var>]: the elements in the order in
    which [begin() .. end()] visits them. *)
Definition VarSet : Type := list Var.

Definition labels (vs : VarSet) : list Z := label <$> vs.

(** The representation invariant of [SmallSet<Var>]: labels strictly
    ascending (sorted, no duplicates). *)
Fixpoint ascending (vs : VarSet) : bool :=
  match vs with
  | [] => true
  | n :: rest =>
      match rest with
      | [] => true
      | n' :: _ => (label n <? label n')%Z && ascending rest
      end
  end.

(** Every variable has at least one state (the data model of the
    specification; a [Var] with no state makes [calcStates] divide by
    zero). *)
Definition inhabited_states (vs : VarSet) : bool :=
  forallb (λ n, 0 <? states n) vs.

(** The exact product of the numbers of states, with no wrap-around. *)
Fixpoint prod_states (vs : VarSet) : N :=
  match vs with
  | [] => 1
  | n :: rest => states n * prod_states rest
  end.

(** [std::map<Var, size_t>], keyed by label. *)
Abbreviation Assignment := (gmap Z N).

Section Indexing.

(** The width of [size_t] in bits. *)
Context (size_bits : positive).

Definition size_modulus : N := 2 ^ Npos size_bits.

(** Reduction of an arithmetic result to [size_t]. *)
Definition wrap (x : N) : N := x mod size_modulus.

(** The product of the numbers of states fits in a [size_t]. *)
Definition representable (vs : VarSet) : bool :=
  prod_states vs <? size_modulus.

(** *** [VarSet::nrStates] *)

(** The loop [for (n = begin(); n != end(); n++) states *= n->states();],
    [acc] being the local [states]. *)
Fixpoint nrStates_loop (vs : VarSet) (acc : N) : N :=
  match vs with
  | [] => acc
  | n :: rest => nrStates_loop rest (wrap (acc * states n))
  end.

Definition nrStates (vs : VarSet) : N := nrStates_loop vs 1.

(** *** [VarSet::calcState] *)

(** The loop of [calcState]: [prod] and [state] are the two locals, [a] is
    the argument [states]. *)
Fixpoint calcState_loop (vs : VarSet) (a : Assignment) (prod state : N) : N :=
  match vs with
  | [] => state
  | n :: rest =>
      let state' :=
        match a !! label n with
        | Some s => wrap (state + wrap (prod * s))
        | None => state
        end in
      calcState_loop rest a (wrap (prod * states n)) state'
  end.

(** The body contains no [throw] and no assertion: the call always
    returns. *)
Definition calcState (vs : VarSet) (a : Assignment) : result N :=
  Ok (calcState_loop vs a 1 0).

(** *** [VarSet::calcStates] *)

(** The loop of [calcStates]: [st] is the local map [states].  It yields
    the map and what is left of [linearState]. *)
Fixpoint calcStates_loop (vs : VarSet) (linearState : N) (st : Assignment)
  : result (Assignment * N) :=
  match vs with
  | [] => Ok (st, linearState)
  | n :: rest =>
      if states n =? 0 then Undefined
      else calcStates_loop rest (linearState / states n)
             (<[label n := linearState mod states n]> st)
  end.

Definition calcStates (vs : VarSet) (linearState : N) : result Assignment :=
  '(st, linearState') ← calcStates_loop vs linearState ∅;
  _ ← DAI_ASSERT (linearState' =? 0);
  mret st.

End Indexing.

(** ** Specification-level notions *)

(** The state that [a] gives to [n], variables without an entry being in
    state 0. *)
Definition state_of (a : Assignment) (n : Var) : N := default 0 (a !! label n).

(** The mixed-radix value of [a] over [vs], first variable least
    significant, as an exact natural number:
    [s0 + S0 * (s1 + S1 * (s2 + ...))], which is the sum of the source's
    documentation, [s0 + s1 * S0 + s2 * S0 * S1 + ...]. *)
Fixpoint mixed_radix (vs : VarSet) (a : Assignment) : N :=
  match vs with
  | [] => 0
  | n :: rest => state_of a n + states n * mixed_radix rest a
  end.

(** The digits of [i] over [vs] as a map: what [calcStates] stores when the
    labels are distinct. *)
Fixpoint decode_map (vs : VarSet) (i : N) : Assignment :=
  match vs with
  | [] => ∅
  | n :: rest => <[label n := i mod states n]> (decode_map rest (i / states n))
  end.

(** Every specified state of a member of [vs] is below the number of states
    of that member. *)
Definition states_in_range (vs : VarSet) (a : Assignment) : bool :=
  forallb (λ n, match a !! label n with Some s => s <? states n | None => true end) vs.

(** [a] is a full assignment over [vs]: it has an entry for the variables
    of [vs] and for no other. *)
Definition full_assignment (vs : VarSet) (a : Assignment) : bool :=
  bool_decide (dom a = list_to_set (labels vs)).

Section Encode.

Context (size_bits : positive).

(** The procedure of the specification, in [size_t] arithmetic: for each
    variable, [index += stride * state] with state 0 when the variable is
    absent, then [stride *= cardinality]. *)
Fixpoint encode_loop (vs : VarSet) (a : Assignment) (stride index : N) : N :=
  match vs with
  | [] => index
  | n :: rest =>
      encode_loop rest a (wrap size_bits (stride * states n))
        (wrap size_bits (index + wrap size_bits (stride * state_of a n)))
  end.

Definition encode (vs : VarSet) (a : Assignment) : N := encode_loop vs a 1 0.

End Encode.

(** ** The exact inference engine, [class ExactInf] *)

(** [struct Properties { size_t verbose; }]. *)
Record Properties : Type := mkProperties { verbose : N }.

(** The factor graph that the base class [DAIAlgFG] holds ([dai/daialg.h]
    and [dai/factorgraph.h] are not among the sources), as an interface:
    its variables, its factors, and [findVar], the position of a variable,
    each taken as it comes. *)
Class FactorGraphOps (FactorGraph Factor : Type) : Type := {
  vars : FactorGraph → list Var;
  factors : FactorGraph → list Factor;
  findVar : FactorGraph → Var → result N
}.

(** [Real] with its constant [0.0] and the natural logarithm, and the
    factor algebra of [dai/factor.h] that [run] relies on, an external
    collaborator: pointwise product of two factors, the product of no
    factor, summation over a subset of the scope (leaving a factor over the
    remaining variables), normalization, the sum of all the entries and the
    scope of a factor.  [run_metric] is the scalar that [run] returns. *)
Class FactorOps (Real Factor : Type) : Type := {
  Real_zero : Real;
  ln : Real → Real;
  Factor_mul : Factor → Factor → Factor;
  Factor_unit : Factor;
  sum_over : Factor → VarSet → Factor;
  normalize : Factor → Factor;
  total : Factor → Real;
  scope : Factor → VarSet;
  run_metric : Real
}.

(** The data members of an [ExactInf] object, [fg] being the base-class
    subobject. *)
Record ExactInf (Real Factor FactorGraph : Type) : Type := mkExactInf {
  fg : FactorGraph;
  props : Properties;
  _beliefsV : list Factor;
  _beliefsF : list Factor;
  _logZ : Real
}.

Arguments mkExactInf {Real Factor FactorGraph} fg props _beliefsV _beliefsF _logZ.
Arguments fg {Real Factor FactorGraph} e.
Arguments props {Real Factor FactorGraph} e.
Arguments _beliefsV {Real Factor FactorGraph} e.
Arguments _beliefsF {Real Factor FactorGraph} e.
Arguments _logZ {Real Factor FactorGraph} e.

(** A member function runs on the object and leaves it in some state,
    whether it returns or throws. *)
Definition Method (Real Factor FactorGraph A : Type) : Type :=
  ExactInf Real Factor FactorGraph →
  result A * ExactInf Real Factor FactorGraph.

#[global] Instance Method_ret {Real Factor FactorGraph : Type} :
  MRet (Method Real Factor FactorGraph) := λ A a this, (Ok a, this).

#[global] Instance Method_bind {Real Factor FactorGraph : Type} :
  MBind (Method Real Factor FactorGraph) := λ A B f m this,
  match m this with
  | (Ok a, this') => f a this'
  | (Throw c, this') => (Throw c, this')
  | (Undefined, this') => (Undefined, this')
  end.

(** [v[i]] on a [std::vector]: not defined out of bounds. *)
Definition at_index {A : Type} (v : list A) (i : N) : result A :=
  match v !! N.to_nat i with
  | Some x => Ok x
  | None => Undefined
  end.

Section Engine.

Context {Real Factor FactorGraph : Type}.
Context `{!FactorGraphOps FactorGraph Factor, !FactorOps Real Factor}.

Local Abbreviation Engine := (ExactInf Real Factor FactorGraph).
Local Abbreviation Member := (Method Real Factor FactorGraph).

(** Reading the object, as a [const] member function does. *)
Definition read {A : Type} (f : Engine → A) : Member A :=
  λ this, (Ok (f this), this).

(** The outcome of a call that does not touch the object. *)
Definition lift {A : Type} (r : result A) : Member A := λ this, (r, this).

(** Modelled from the spec: the macro [DAI_THROW] of [dai/exceptions.h],
    which is not among the sources; it raises the condition it names. *)
Definition DAI_THROW {A : Type} (c : Condition) : Member A := lift (Throw c).

(** [Factor beliefV( size_t i ) const { return _beliefsV[i]; }] *)
Definition beliefV (i : N) : Member Factor :=
  v ← read _beliefsV; lift (at_index v i).

(** [Factor beliefF( size_t I ) const { return _beliefsF[I]; }] *)
Definition beliefF (I : N) : Member Factor :=
  v ← read _beliefsF; lift (at_index v I).

(** [Factor belief( const Var &n ) const { return beliefV( findVar( n ) ); }] *)
Definition belief (n : Var) : Member Factor :=
  g ← read fg; i ← lift (findVar g n); beliefV i.

(** [Real logZ() const { return _logZ; }] *)
Definition logZ : Member Real := read _logZ.

(** [void init( const VarSet & ) { DAI_THROW(NOT_IMPLEMENTED); }] *)
Definition init_VarSet (ns : VarSet) : Member unit :=
  DAI_THROW NOT_IMPLEMENTED.

(** [double maxDiff() const { DAI_THROW(NOT_IMPLEMENTED); return 0.0; }] *)
Definition maxDiff : Member Real :=
  _ ← DAI_THROW (A := unit) NOT_IMPLEMENTED; mret Real_zero.

(** [size_t Iterations() const { DAI_THROW(NOT_IMPLEMENTED); return 0; }] *)
Definition Iterations : Member N :=
  _ ← DAI_THROW (A := unit) NOT_IMPLEMENTED; mret 0.

(** *** [run], from the specification *)

(** Step 1: the joint factor, product of every factor of the graph. *)
Definition joint (g : FactorGraph) : Factor :=
  foldl Factor_mul Factor_unit (factors g).

(** The variables of the graph that are not in [keep]. *)
Definition all_but (g : FactorGraph) (keep : VarSet) : VarSet :=
  filter (λ n, label n ∉ labels keep) (vars g).

(** Steps 3 and 4: the joint factor summed over every variable outside
    [keep], then normalized. *)
Definition marginal (g : FactorGraph) (keep : VarSet) : Factor :=
  normalize (sum_over (joint g) (all_but g keep)).

(** Writing slot [i] of a belief container.  [construct] allocates the
    containers, one slot per variable and one per factor, and [run] writes
    each slot once; a slot that was not allocated cannot be written, and the
    specification says nothing of [run] on an engine that was not
    constructed. *)
Definition write_slot {A : Type} (v : list A) (i : nat) (x : A)
  : result (list A) :=
  if decide (i < length v)%nat then Ok (<[i := x]> v) else Undefined.

Definition store_beliefV (i : nat) (b : Factor) : Member unit := λ this,
  match write_slot (_beliefsV this) i b with
  | Ok v =>
      (Ok tt, mkExactInf (fg this) (props this) v (_beliefsF this) (_logZ this))
  | Throw c => (Throw c, this)
  | Undefined => (Undefined, this)
  end.

Definition store_beliefF (I : nat) (b : Factor) : Member unit := λ this,
  match write_slot (_beliefsF this) I b with
  | Ok v =>
      (Ok tt, mkExactInf (fg this) (props this) (_beliefsV this) v (_logZ this))
  | Throw c => (Throw c, this)
  | Undefined => (Undefined, this)
  end.

Definition store_logZ (z : Real) : Member unit := λ this,
  (Ok tt, mkExactInf (fg this) (props this) (_beliefsV this) (_beliefsF this) z).

(** One pass over a list, each element with its position. *)
Fixpoint for_each {A : Type} (body : nat → A → Member unit) (l : list A)
    (i : nat) : Member unit :=
  match l with
  | [] => mret tt
  | x :: l' => _ ← body i x; for_each body l' (S i)
  end.

(** Modelled from the spec: the body of [ExactInf::run], which is defined
    in [exactinf.cpp], not among the sources.  Section 4.2 of the
    specification: build the joint factor; set [logZ] to the logarithm of
    its total mass; for each variable, then for each factor, in the order of
    the graph, write its belief in its slot; return a scalar. *)
Definition run : Member Real :=
  g ← read fg;
  _ ← store_logZ (ln (total (joint g)));
  _ ← for_each (λ i v, store_beliefV i (marginal g [v])) (vars g) 0%nat;
  _ ← for_each (λ I F, store_beliefF I (marginal g (scope F))) (factors g) 0%nat;
  mret run_metric.

End Engine.

(** ** Property sets, [src/properties.cpp] *)

(** The two conditions that [properties.cpp] raises. *)
Inductive PropertyCondition : Type :=
  | MALFORMED_PROPERTY
  | UNKNOWN_PROPERTY_TYPE.

(** How a call on a stream ends: it returns, it throws, or it overflows the
    [int] counter [level], which is not defined behaviour. *)
Inductive outcome : Type :=
  | Returns
  | Throws (c : PropertyCondition)
  | Overflows.

(** Modelled from the spec: the types of [dai/properties.h], which is not
    among the sources.  A [PropertyValue] is a [boost::any]: the operator
    [<<] tells apart a [size_t], a [std::string], a [double], a [bool] and a
    [PropertySet]; any other content is [any_other].  A [PropertySet] is a
    mapping from option names to values, visited in the order of the
    names. *)
#[warnings="-register-all"]
Inductive PropertyValue (Double : Type) : Type :=
  | any_size_t (n : N)
  | any_string (s : string)
  | any_double (d : Double)
  | any_bool (b : bool)
  | any_PropertySet (ps : gmap string (PropertyValue Double))
  | any_other.

Arguments any_size_t {Double} n.
Arguments any_string {Double} s.
Arguments any_double {Double} d.
Arguments any_bool {Double} b.
Arguments any_PropertySet {Double} ps.
Arguments any_other {Double}.

Abbreviation PropertySet Double := (gmap string (PropertyValue Double)).

(** An output stream, as the text written to it so far. *)
Abbreviation ostream := string.

(** The names of a map in ascending order, and its entries in that order:
    what [begin() .. end()] visits. *)
Definition keys {A : Type} (m : gmap string A) : list string :=
  merge_sort String.le (elements (dom m)).

Definition entries {A : Type} (m : gmap string A) : list (string * A) :=
  omap (λ k, pair k <$> m !! k) (keys m).

(** Modelled from the spec: [PropertySet::Set] of [dai/properties.h], which
    binds a name to a value and replaces the binding the name had. *)
Definition PropertySet_Set {Double : Type} (key value : string)
    (ps : PropertySet Double) : PropertySet Double :=
  <[key := any_string value]> ps.

(** The bounds of [int]. *)
Definition INT_MAX : Z := 2147483647.
Definition INT_MIN : Z := -2147483648.

Section Properties.

Context {Double : Type}.

(** What [os << d] writes for a [double], left open. *)
Context (print_double : Double → string).

(** The loop of [operator<<] on a [PropertySet], each entry carrying what
    printing its value does to the stream: a comma before every entry but
    the first, then the name and [=], then the value.  A condition ends the
    loop, the stream keeping what was written. *)
Fixpoint print_entries (first : bool)
    (es : list (string * (ostream → outcome * ostream))) (os : ostream)
  : outcome * ostream :=
  match es with
  | [] => (Returns, os)
  | (key, print) :: es' =>
      let os := if first then os else os +:+ "," in
      match print (os +:+ key +:+ "=") with
      | (Returns, os') => print_entries false es' os'
      | r => r
      end
  end.

(** The dispatch of [operator<<] on a [Property], after the name and [=]
    are written; for a [PropertySet] it is [operator<<] on that set: [[],
    the entries, []].  Integers are written in decimal and booleans as [1]
    or [0], the defaults of a stream. *)
Fixpoint print_any (v : PropertyValue Double) (os : ostream) {struct v}
  : outcome * ostream :=
  match v with
  | any_size_t n => (Returns, os +:+ pretty n)
  | any_string s => (Returns, os +:+ s)
  | any_double d => (Returns, os +:+ print_double d)
  | any_bool b => (Returns, os +:+ if b then "1" else "0")
  | any_PropertySet ps =>
      match print_entries true (entries (print_any <$> ps)) (os +:+ "[") with
      | (Returns, os') => (Returns, os' +:+ "]")
      | r => r
      end
  | any_other => (Throws UNKNOWN_PROPERTY_TYPE, os)
  end.

(** [std::ostream& operator<< (std::ostream & os, const Property & p)] *)
Definition print_Property (p : string * PropertyValue Double) (os : ostream)
  : outcome * ostream :=
  print_any p.2 (os +:+ p.1 +:+ "=").

(** [std::ostream& operator<< (std::ostream & os, const PropertySet & ps)] *)
Definition print_PropertySet (ps : PropertySet Double) (os : ostream)
  : outcome * ostream :=
  print_any (any_PropertySet ps) os.

(** The loop of [operator<<] on a [PropertySet] as the source has it, over
    the entries and with [operator<<] on each [Property]. *)
Fixpoint print_loop (first : bool) (es : list (string * PropertyValue Double))
    (os : ostream) : outcome * ostream :=
  match es with
  | [] => (Returns, os)
  | p :: es' =>
      match print_Property p (if first then os else os +:+ ",") with
      | (Returns, os') => print_loop false es' os'
      | r => r
      end
  end.

(** The loops of [operator>>] over [s[1 .. N)], a position of the source
    being the text from that position up to [N].

    [tokens] is the test of the outer loop at [token_start]; [scan_key] is
    the scan for [=], which starts one character further, [key] being
    [s.substr(token_start, token_end - token_start)] so far; [scan_value] is
    the scan for a comma at level 0, with [value] the substring so far.
    The set is the one built so far, and what a throw leaves behind. *)
Fixpoint tokens (rest : string) (ps : PropertySet Double) {struct rest}
  : outcome * PropertySet Double :=
  match rest with
  | EmptyString => (Returns, ps)
  | String c rest' => scan_key rest' (String c EmptyString) ps
  end
with scan_key (rest : string) (key : string) (ps : PropertySet Double)
    {struct rest} : outcome * PropertySet Double :=
  match rest with
  | EmptyString => (Throws MALFORMED_PROPERTY, ps)
  | String c rest' =>
      if Ascii.eqb c "="%char
      then scan_value rest' key EmptyString 0%Z ps
      else scan_key rest' (key +:+ String c EmptyString) ps
  end
with scan_value (rest : string) (key value : string) (level : Z)
    (ps : PropertySet Double) {struct rest} : outcome * PropertySet Double :=
  match rest with
  | EmptyString =>
      if negb (level =? 0)%Z then (Throws MALFORMED_PROPERTY, ps)
      else (Returns, PropertySet_Set key value ps)
  | String c rest' =>
      if Ascii.eqb c "["%char then
        if (level =? INT_MAX)%Z then (Overflows, ps)
        else scan_value rest' key (value +:+ String c EmptyString)
               (level + 1)%Z ps
      else if Ascii.eqb c "]"%char then
        if (level =? INT_MIN)%Z then (Overflows, ps)
        else scan_value rest' key (value +:+ String c EmptyString)
               (level - 1)%Z ps
      else if Ascii.eqb c ","%char && (level =? 0)%Z then
        tokens rest' (PropertySet_Set key value ps)
      else scan_value rest' key (value +:+ String c EmptyString) level ps
  end.

(** [std::istream& operator >> (std::istream& is, PropertySet & ps)], [s]
    being the word that [is >> s] extracts.  The result is the outcome and
    the content of [ps] after the call. *)
Definition read_PropertySet (s : string) : outcome * PropertySet Double :=
  let ps : PropertySet Double := ∅ in
  if (String.length s <? 2)%nat
     || negb (bool_decide (String.get 0 s = Some "["%char))
     || negb (bool_decide (String.get (String.length s - 1) s = Some "]"%char))
  then (Throws MALFORMED_PROPERTY, ps)
  else
    let N := (String.length s - 1)%nat in
    tokens (String.substring 1 (N - 1) s) ps.

End Properties.

(** *** The word that [is >> s] extracts *)

(** An input stream, as the text still to be read. *)
Abbreviation istream := string.

(** [is >> s] on a [std::string] skips the white space in front, then
    takes the characters up to the next white space or the end of the
    stream; [s] is empty when there is none. *)
Fixpoint skip_space (input : istream) : istream :=
  match input with
  | EmptyString => EmptyString
  | String c input' => if Ascii.is_space c then skip_space input' else input
  end.

Fixpoint take_word (input : istream) : string * istream :=
  match input with
  | EmptyString => (EmptyString, EmptyString)
  | String c input' =>
      if Ascii.is_space c then (EmptyString, input)
      else let '(s, rest) := take_word input' in (String c s, rest)
  end.

(** [operator>>] from the stream on: the outcome, the set, and what is left
    of the stream. *)
Definition read_stream {Double : Type} (input : istream)
  : outcome * PropertySet Double * istream :=
  let '(s, rest) := take_word (skip_space input) in
  (read_PropertySet s, rest).

(** A text of white space only, a text without any, and a text that ends a
    word: empty, or white space first. *)
Fixpoint all_space (s : string) : bool :=
  match s with
  | EmptyString => true
  | String c s' => Ascii.is_space c && all_space s'
  end.

Fixpoint no_space (s : string) : bool :=
  match s with
  | EmptyString => true
  | String c s' => negb (Ascii.is_space c) && no_space s'
  end.

Definition ends_word (s : string) : bool :=
  match s with
  | EmptyString => true
  | String c _ => Ascii.is_space c
  end.

(** *** Well-formed names and values *)

(** No [=] in the text. *)
Fixpoint no_equals (s : string) : bool :=
  match s with
  | EmptyString => true
  | String c s' => negb (Ascii.eqb c "="%char) && no_equals s'
  end.

(** A name that the scan for [=] reads back whole: it is not empty and has
    no [=] after its first character. *)
Definition key_ok (key : string) : bool :=
  match key with
  | EmptyString => false
  | String _ s => no_equals s
  end.

(** The bracket level after [v], entered at [level]; none when [v] has a
    comma at level 0 or takes the level out of the [int] range. *)
Fixpoint level_after (v : string) (level : Z) : option Z :=
  match v with
  | EmptyString => Some level
  | String c v' =>
      if Ascii.eqb c "["%char then
        if (level =? INT_MAX)%Z then None else level_after v' (level + 1)%Z
      else if Ascii.eqb c "]"%char then
        if (level =? INT_MIN)%Z then None else level_after v' (level - 1)%Z
      else if Ascii.eqb c ","%char && (level =? 0)%Z then None
      else level_after v' level
  end.

(** A value that the scan for a comma reads back whole: no comma outside
    brackets, and as many closing brackets as opening ones. *)
Definition value_ok (v : string) : bool :=
  bool_decide (level_after v 0%Z = Some 0%Z).

(** A value with no bracket and no comma at all. *)
Fixpoint plain (v : string) : bool :=
  match v with
  | EmptyString => true
  | String c v' =>
      negb (Ascii.eqb c "["%char) && negb (Ascii.eqb c "]"%char)
      && negb (Ascii.eqb c ","%char) && plain v'
  end.

(** The text of a sequence of string-valued entries between the brackets:
    [k1=v1,k2=v2,...]. *)
Fixpoint text_more (es : list (string * string)) : string :=
  match es with
  | [] => EmptyString
  | (k, v) :: es' => "," +:+ k +:+ "=" +:+ v +:+ text_more es'
  end.

Definition text (es : list (string * string)) : string :=
  match es with
  | [] => EmptyString
  | (k, v) :: es' => k +:+ "=" +:+ v +:+ text_more es'
  end.

Definition entry_ok (e : string * string) : bool :=
  key_ok e.1 && value_ok e.2.

(** Binding the entries one after the other, as the loop of [operator>>]
    does. *)
Definition bind_all {Double : Type} (es : list (string * string))
    (ps : PropertySet Double) : PropertySet Double :=
  foldl (λ ps e, PropertySet_Set e.1 e.2 ps) ps es.

(** A set of string values with well-formed names and values. *)
Definition PropertySet_ok {Double : Type} (ps : PropertySet Double) : bool :=
  forallb (λ e, match e.2 with
                | any_string v => entry_ok (e.1, v)
                | _ => false
                end) (map_to_list ps).

(** The same, as a statement on the bindings. *)
Definition strings_only {Double : Type} (ps : PropertySet Double) : Prop :=
  ∀ k x, ps !! k = Some x → ∃ v, x = any_string v ∧ entry_ok (k, v) = true.

(** How deep the sets within a value are nested. *)
Fixpoint depth {Double : Type} (x : PropertyValue Double) : nat :=
  match x with
  | any_PropertySet ps =>
      S (map_fold (λ _ d acc, Nat.max d acc) 0%nat (depth <$> ps))
  | _ => 0%nat
  end.

(** What [operator<<] writes for a value on an empty stream. *)
Definition written {Double : Type} (print_double : Double → string)
    (x : PropertyValue Double) : string :=
  (print_any print_double x EmptyString).2.

(** Printing [x] on a stream is printing it on an empty stream, after what
    the stream holds. *)
Definition appends {Double : Type} (print_double : Double → string)
    (x : PropertyValue Double) : Prop :=
  ∀ os, print_any print_double x os
        = ((print_any print_double x EmptyString).1,
           os +:+ written print_double x).

(** A set of values that [operator<<] prints without a throw, under
    well-formed names, each written as a well-formed value. *)
Definition PropertySet_printable_ok {Double : Type}
    (print_double : Double → string) (ps : PropertySet Double) : bool :=
  forallb (λ e, match print_any print_double e.2 EmptyString with
                | (Returns, w) => entry_ok (e.1, w)
                | _ => false
                end) (map_to_list ps).

(** ** Sample data *)

(** Three variables with 2, 3 and 2 states. *)
Definition x0 : Var := mkVar 0 2.
Definition x1 : Var := mkVar 1 3.
Definition x2 : Var := mkVar 2 2.

(** Variables with [2 ^ 32] states each, and a binary one after them: on a
    64-bit [size_t] the product of [y0] and [y1] no longer fits. *)
Definition y0 : Var := mkVar 0 (2 ^ 32).
Definition y1 : Var := mkVar 1 (2 ^ 32).
Definition y2 : Var := mkVar 2 2.

(** A graph of two variables, factors being plain lists of integers and a
    variable standing at the position its label gives; and an engine over
    it. *)
#[global] Instance demo_graph : FactorGraphOps (list Var) (list Z) := {|
  vars := id;
  factors := λ _, [];
  findVar := λ _ n, Ok (Z.to_N (label n))
|}.

Definition demo_engine : ExactInf Z (list Z) (list Var) :=
  mkExactInf [x0; x1] (mkProperties 0) [[1; 1]; [2; 1; 3]]%Z [] 0%Z.

(** No [double] at all, for sets without one. *)
Definition no_double (d : unit) : string := EmptyString.

(** *** A worked example for the engine *)

(** Exact numbers for the example: a rational, or a logarithm left as it
    is written. *)
Abbreviation Q := QArith_base.Q.
Abbreviation Qmake := QArith_base.Qmake.

Inductive real : Type :=
  | Num (q : Q)
  | Ln (r : real).

(** A factor as a table over the joint states of its scope, indexed by
    [calcState]. *)
Record table : Type := mkTable { table_scope : VarSet; table_values : list Q }.

Definition Qsum (l : list Q) : Q :=
  Qreduction.Qred (foldr QArith_base.Qplus (Qmake 0 1) l).

Definition joint_states (vs : VarSet) : list Assignment :=
  omap (λ i, match calcStates vs (N.of_nat i) with
             | Ok a => Some a
             | _ => None
             end) (seq 0 (N.to_nat (nrStates 64 vs))).

Definition table_at (F : table) (a : Assignment) : Q :=
  match calcState 64 (table_scope F) a with
  | Ok i => nth (N.to_nat i) (table_values F) (Qmake 0 1)
  | _ => Qmake 0 1
  end.

Fixpoint add_var (n : Var) (vs : VarSet) : VarSet :=
  match vs with
  | [] => [n]
  | m :: vs' =>
      if (label n <? label m)%Z then n :: vs
      else if (label n =? label m)%Z then vs
      else m :: add_var n vs'
  end.

Definition same_index (vs : VarSet) (a b : Assignment) : bool :=
  match calcState 64 vs a, calcState 64 vs b with
  | Ok i, Ok j => i =? j
  | _, _ => false
  end.

(** Pointwise product over the union of the scopes. *)
Definition table_mul (F G : table) : table :=
  let vs := foldr add_var (table_scope G) (table_scope F) in
  mkTable vs
    ((λ a, Qreduction.Qred (QArith_base.Qmult (table_at F a) (table_at G a)))
       <$> joint_states vs).

(** Summation over the variables of [away]. *)
Definition table_sum_over (F : table) (away : VarSet) : table :=
  let keep := filter (λ n, label n ∉ labels away) (table_scope F) in
  mkTable keep
    ((λ b, Qsum (table_at F <$>
                   List.filter (same_index keep b)
                     (joint_states (table_scope F))))
       <$> joint_states keep).

(** Division by the sum of the entries. *)
Definition table_normalize (F : table) : table :=
  let z := Qsum (table_values F) in
  mkTable (table_scope F)
    ((λ x, Qreduction.Qred (QArith_base.Qdiv x z)) <$> table_values F).

#[global] Instance worked_algebra : FactorOps real table := {|
  Real_zero := Num (Qmake 0 1);
  ln := Ln;
  Factor_mul := table_mul;
  Factor_unit := mkTable [] [Qmake 1 1];
  sum_over := table_sum_over;
  normalize := table_normalize;
  total := λ F, Num (Qsum (table_values F));
  scope := table_scope;
  run_metric := Num (Qmake 0 1)
|}.

#[global] Instance worked_graph
  : FactorGraphOps (VarSet * list table) table := {|
  vars := fst;
  factors := snd;
  findVar := λ g n,
    match list_find (λ m, label m = label n) g.1 with
    | Some (i, _) => Ok (N.of_nat i)
    | None => Undefined
    end
|}.



(** The other example of section 8: one variable with three states and
    the factor [[2,1,3]]. *)
Definition vC : Var := mkVar 0 3.

Definition single_engine : ExactInf real table (VarSet * list table) :=
  mkExactInf ([vC], [mkTable [vC] [Qmake 2 1; Qmake 1 1; Qmake 3 1]])
    (mkProperties 0) [Factor_unit] [Factor_unit] Real_zero.


(** * Facts *)

(** ** Facts on [size_t] arithmetic *)

Section SizeArith.

Context (size_bits : positive).

Local Abbreviation M := (size_modulus size_bits).
Local Abbreviation wr := (wrap size_bits).

Lemma size_modulus_gt_1 : 1 < M.
Proof.
  unfold size_modulus.
  change 1 with (2 ^ 0) at 1. apply N.pow_lt_mono_r; lia.
Qed.

Lemma size_modulus_neq_0 : M ≠ 0.
Proof. pose proof size_modulus_gt_1. lia. Qed.

Lemma wrap_lt x : wr x < M.
Proof. apply N.mod_lt, size_modulus_neq_0. Qed.

Lemma wrap_small x : x < M → wr x = x.
Proof. apply N.mod_small. Qed.

Lemma wrap_le x : wr x ≤ x.
Proof. apply N.Div0.mod_le. Qed.

Lemma wrap_add_l x y : wr (wr x + y) = wr (x + y).
Proof. apply N.Div0.add_mod_idemp_l. Qed.

Lemma wrap_add_r x y : wr (x + wr y) = wr (x + y).
Proof. apply N.Div0.add_mod_idemp_r. Qed.

Lemma wrap_mul_l x y : wr (wr x * y) = wr (x * y).
Proof. apply N.Div0.mul_mod_idemp_l. Qed.

(** *** [nrStates] is the product of the numbers of states modulo
    [2 ^ size_bits] *)

Lemma nrStates_loop_wrap vs acc :
  nrStates_loop size_bits vs (wr acc) = wr (acc * prod_states vs).
Proof.
  revert acc. induction vs as [|n rest IH]; intros acc; cbn [nrStates_loop prod_states].
  - by rewrite N.mul_1_r.
  - rewrite wrap_mul_l, IH. f_equal. lia.
Qed.

Lemma nrStates_wrap vs : nrStates size_bits vs = wr (prod_states vs).
Proof.
  unfold nrStates.
  rewrite <- (wrap_small 1) at 1 by apply size_modulus_gt_1.
  rewrite nrStates_loop_wrap. f_equal. lia.
Qed.

Lemma nrStates_representable vs :
  representable size_bits vs = true → nrStates size_bits vs = prod_states vs.
Proof.
  unfold representable. intros H%N.ltb_lt.
  rewrite nrStates_wrap. by apply wrap_small.
Qed.

(** *** [calcState] is the mixed-radix value modulo [2 ^ size_bits] *)

Lemma calcState_loop_wrap vs a prod state :
  calcState_loop size_bits vs a (wr prod) (wr state)
  = wr (state + prod * mixed_radix vs a).
Proof.
  revert prod state. induction vs as [|n rest IH]; intros prod state;
    cbn [calcState_loop mixed_radix].
  - f_equal. lia.
  - unfold state_of. destruct (a !! label n) as [s|]; cbn [default id].
    + rewrite !wrap_mul_l, wrap_add_l, wrap_add_r, IH. f_equal. lia.
    + rewrite wrap_mul_l, IH. f_equal. lia.
Qed.

Lemma calcState_loop_mixed_radix vs a :
  calcState_loop size_bits vs a 1 0 = wr (mixed_radix vs a).
Proof.
  pose proof size_modulus_gt_1.
  rewrite <- (wrap_small 1) at 1 by done.
  rewrite <- (wrap_small 0) at 1 by lia.
  rewrite calcState_loop_wrap. f_equal. lia.
Qed.

Lemma encode_loop_wrap vs a stride index :
  encode_loop size_bits vs a (wr stride) (wr index)
  = wr (index + stride * mixed_radix vs a).
Proof.
  revert stride index.
  induction vs as [|n rest IH]; intros stride index; cbn [encode_loop mixed_radix].
  - f_equal. lia.
  - rewrite !wrap_mul_l, wrap_add_l, wrap_add_r, IH. f_equal. lia.
Qed.

Lemma encode_mixed_radix vs a : encode size_bits vs a = wr (mixed_radix vs a).
Proof.
  pose proof size_modulus_gt_1. unfold encode.
  rewrite <- (wrap_small 1) at 1 by done.
  rewrite <- (wrap_small 0) at 1 by lia.
  rewrite encode_loop_wrap. f_equal. lia.
Qed.

End SizeArith.

(** ** Facts on variable sets and on decoding *)

Lemma ascending_cons n rest :
  ascending (n :: rest) = true →
  ascending rest = true ∧ Forall (λ n', (label n < label n')%Z) rest.
Proof.
  revert n. induction rest as [|n' rest IH]; intros n H; [done|].
  cbn [ascending] in H. apply andb_true_iff in H as [Hlt%Z.ltb_lt Hrest].
  split; [done|]. constructor; [done|].
  destruct (IH n' Hrest) as [_ Hall].
  eapply Forall_impl; [exact Hall|]. intros m Hm. cbn in Hm. lia.
Qed.

Lemma ascending_NoDup vs : ascending vs = true → NoDup (labels vs).
Proof.
  induction vs as [|n rest IH]; intros H; [constructor|].
  apply ascending_cons in H as [Hrest Hall].
  unfold labels. rewrite fmap_cons. constructor; [|by apply IH].
  intros (m & Heq & Hm)%list_elem_of_fmap.
  rewrite Forall_forall in Hall. specialize (Hall m Hm). cbn in Hall. lia.
Qed.

Lemma prod_states_pos vs : inhabited_states vs = true ↔ 0 < prod_states vs.
Proof.
  induction vs as [|n rest IH]; cbn [inhabited_states forallb prod_states]; [done|].
  fold (inhabited_states rest).
  rewrite andb_true_iff, N.ltb_lt, IH. nia.
Qed.

(** With every variable inhabited the loop of [calcStates] runs to its end,
    and [linearState] is then the quotient by the product of the numbers of
    states. *)
Lemma calcStates_loop_quotient vs i st :
  inhabited_states vs = true →
  ∃ st', calcStates_loop vs i st = Ok (st', i / prod_states vs).
Proof.
  revert i st. induction vs as [|n rest IH]; intros i st H;
    cbn [calcStates_loop prod_states].
  - exists st. by rewrite N.div_1_r.
  - cbn [inhabited_states forallb] in H.
    apply andb_true_iff in H as [Hn%N.ltb_lt Hrest].
    destruct (N.eqb_spec (states n) 0) as [?|_]; [lia|].
    destruct (IH (i / states n) (<[label n := i mod states n]> st) Hrest)
      as [st' ->].
    exists st'. by rewrite N.Div0.div_div.
Qed.

Lemma decode_map_lookup_None vs i l :
  l ∉ labels vs → decode_map vs i !! l = None.
Proof.
  revert i. induction vs as [|n rest IH]; intros i Hl; cbn [decode_map]; [done|].
  unfold labels in Hl. rewrite fmap_cons, not_elem_of_cons in Hl.
  destruct Hl as [Hne Hl]. rewrite lookup_insert_ne by done. by apply IH.
Qed.

(** With distinct labels the map that the loop builds is [decode_map],
    laid over the entries the map had before. *)
Lemma calcStates_loop_decode_map vs i st :
  NoDup (labels vs) → inhabited_states vs = true →
  calcStates_loop vs i st = Ok (decode_map vs i ∪ st, i / prod_states vs).
Proof.
  revert i st. induction vs as [|n rest IH]; intros i st Hnd H;
    cbn [calcStates_loop prod_states decode_map].
  - by rewrite (left_id_L ∅ (∪)), N.div_1_r.
  - unfold labels in Hnd. rewrite fmap_cons in Hnd.
    apply NoDup_cons in Hnd as [Hfresh Hnd].
    cbn [inhabited_states forallb] in H.
    apply andb_true_iff in H as [Hn%N.ltb_lt Hrest].
    destruct (N.eqb_spec (states n) 0) as [?|_]; [lia|].
    rewrite IH by done. rewrite N.Div0.div_div.
    rewrite <- insert_union_l.
    by rewrite insert_union_r by by apply decode_map_lookup_None.
Qed.

Lemma calcStates_in_range vs i :
  NoDup (labels vs) → i < prod_states vs →
  calcStates vs i = Ok (decode_map vs i).
Proof.
  intros Hnd Hi. unfold calcStates.
  rewrite calcStates_loop_decode_map; [|done|apply prod_states_pos; lia].
  rewrite N.div_small by done. cbn. by rewrite (right_id_L ∅ (∪)).
Qed.

(** The mixed-radix value reads [a] only at the labels of [vs]. *)
Lemma mixed_radix_ext vs a a' :
  (∀ l, l ∈ labels vs → a !! l = a' !! l) →
  mixed_radix vs a = mixed_radix vs a'.
Proof.
  induction vs as [|n rest IH]; intros H; cbn [mixed_radix]; [done|].
  unfold labels in H. rewrite fmap_cons in H.
  unfold state_of. rewrite (H (label n)) by apply list_elem_of_here.
  rewrite IH; [done|]. intros l Hl. apply H. by apply list_elem_of_further.
Qed.

Lemma mixed_radix_decode_map vs i :
  NoDup (labels vs) → mixed_radix vs (decode_map vs i) = i mod prod_states vs.
Proof.
  revert i. induction vs as [|n rest IH]; intros i Hnd;
    cbn [mixed_radix decode_map prod_states].
  - by rewrite N.mod_1_r.
  - unfold labels in Hnd. rewrite fmap_cons in Hnd.
    apply NoDup_cons in Hnd as [Hfresh Hnd].
    unfold state_of. rewrite lookup_insert_eq. cbn [default].
    rewrite (mixed_radix_ext rest _ (decode_map rest (i / states n))).
    + rewrite IH by done. by rewrite N.Div0.mod_mul_r.
    + intros l Hl. apply lookup_insert_ne. intros Heq. apply Hfresh.
      by rewrite Heq.
Qed.

Lemma mixed_radix_lt vs a :
  inhabited_states vs = true → states_in_range vs a = true →
  mixed_radix vs a < prod_states vs.
Proof.
  induction vs as [|n rest IH]; cbn [mixed_radix prod_states]; [lia|].
  cbn [inhabited_states states_in_range forallb].
  fold (inhabited_states rest). fold (states_in_range rest a).
  intros [Hn%N.ltb_lt Hrest]%andb_true_iff [Hs Hr]%andb_true_iff.
  specialize (IH Hrest Hr).
  assert (state_of a n < states n) as Hlt.
  { unfold state_of. destruct (a !! label n); cbn; [by apply N.ltb_lt|done]. }
  nia.
Qed.

Lemma decode_map_mixed_radix vs a l :
  states_in_range vs a = true → inhabited_states vs = true →
  decode_map vs (mixed_radix vs a) !! l
  = if decide (l ∈ labels vs) then Some (default 0 (a !! l)) else None.
Proof.
  induction vs as [|n rest IH]; cbn [mixed_radix decode_map]; intros Hr Hi.
  - rewrite lookup_empty. by rewrite decide_False by apply not_elem_of_nil.
  - cbn [inhabited_states states_in_range forallb] in Hr, Hi.
    fold (inhabited_states rest) in Hi. fold (states_in_range rest a) in Hr.
    apply andb_true_iff in Hr as [Hs Hr]. apply andb_true_iff in Hi as [Hn%N.ltb_lt Hi].
    assert (state_of a n < states n) as Hlt.
    { unfold state_of. destruct (a !! label n); cbn; [by apply N.ltb_lt|done]. }
    assert ((state_of a n + states n * mixed_radix rest a) mod states n = state_of a n) as ->.
    { rewrite (N.mul_comm (states n)), N.Div0.mod_add. by apply N.mod_small. }
    assert ((state_of a n + states n * mixed_radix rest a) / states n = mixed_radix rest a) as ->.
    { rewrite N.add_comm, (N.mul_comm (states n)), N.div_add_l by lia.
      rewrite N.div_small by done. lia. }
    unfold labels. rewrite fmap_cons. fold (labels rest).
    destruct (decide (label n = l)) as [<-|Hne].
    + rewrite lookup_insert_eq. by rewrite decide_True by apply list_elem_of_here.
    + rewrite lookup_insert_ne by done. rewrite IH by done.
      destruct (decide (l ∈ labels rest)) as [Hin|Hnin].
      * by rewrite decide_True by by apply list_elem_of_further.
      * rewrite decide_False; [done|]. rewrite not_elem_of_cons. split; [congruence|done].
Qed.

Lemma full_in_range_inhabited vs a :
  full_assignment vs a = true → states_in_range vs a = true →
  inhabited_states vs = true.
Proof.
  unfold full_assignment. intros Hdom%bool_decide_eq_true Hr.
  unfold inhabited_states, states_in_range in *.
  rewrite forallb_forall in Hr. apply forallb_forall. intros n Hn.
  specialize (Hr n Hn).
  assert (label n ∈ dom a) as [s Hs]%elem_of_dom.
  { rewrite Hdom, elem_of_list_to_set. apply list_elem_of_fmap.
    exists n. split; [done|]. by apply list_elem_of_In. }
  rewrite Hs in Hr. apply N.ltb_lt in Hr. apply N.ltb_lt. lia.
Qed.

Lemma calcState_restrict size_bits vs a :
  calcState size_bits vs (filter (λ e, e.1 ∈ labels vs) a)
  = calcState size_bits vs a.
Proof.
  unfold calcState. rewrite !calcState_loop_mixed_radix. do 2 f_equal.
  apply mixed_radix_ext. intros l Hl.
  destruct (a !! l) as [s|] eqn:Hs.
  - by apply map_lookup_filter_Some.
  - apply map_lookup_filter_None. left. done.
Qed.

(** A variable with no state: [nrStates] is 0 and the first division of
    [calcStates] is by zero, whatever the index. *)
Example calcStates_no_state :
  nrStates 64 [mkVar 0 0] = 0 ∧ calcStates [mkVar 0 0] 0 = Undefined.
Proof. split; reflexivity. Qed.

(** ** The indexing claims *)

(** C1. Round trip from an index: for every variable set [vs] (labels
    strictly ascending) and every index [i] below [nrStates vs], decoding [i]
    succeeds and encoding the assignment so obtained returns [i]. *)
Theorem calcState_calcStates (size_bits : positive) (vs : VarSet) (i : N) :
  ascending vs = true →
  i < nrStates size_bits vs →
  calcStates vs i ≫= calcState size_bits vs = Ok i.
Proof.
  intros Hasc Hi. rewrite nrStates_wrap in Hi.
  pose proof (wrap_lt size_bits (prod_states vs)).
  pose proof (wrap_le size_bits (prod_states vs)).
  pose proof (ascending_NoDup vs Hasc) as Hnd.
  rewrite calcStates_in_range by (done || lia). cbn [mbind result_bind].
  unfold calcState.
  rewrite calcState_loop_mixed_radix, mixed_radix_decode_map by done.
  rewrite N.mod_small by lia. f_equal. apply wrap_small. lia.
Qed.

Lemma calcState_calcStates_witness :
  ascending [x0; x1; x2] = true ∧ 7 < nrStates 64 [x0; x1; x2] ∧
  calcStates [x0; x1; x2] 7 ≫= calcState 64 [x0; x1; x2] = Ok 7.
Proof.
  split; [reflexivity|]. split; [by vm_compute|].
  apply (calcState_calcStates 64 [x0; x1; x2] 7); [reflexivity|by vm_compute].
Defined.

(** C2, as stated, fails when the product of the numbers of states does not
    fit in [size_t]: over [y0; y1; y2] the full, in-range assignment
    [0, 0, 1] has mixed-radix value [2 ^ 64], which a 64-bit [calcState]
    returns as 0, and 0 decodes to [0, 0, 0]. *)
Lemma calcStates_calcState_overflow :
  let vs := [y0; y1; y2] in
  let a : Assignment := <[0%Z := 0]> (<[1%Z := 0]> (<[2%Z := 1]> ∅)) in
  ascending vs = true ∧ full_assignment vs a = true ∧
  states_in_range vs a = true ∧
  calcState 64 vs a = Ok 0 ∧
  calcState 64 vs a ≫= calcStates vs ≠ Ok a.
Proof.
  cbv zeta. split; [reflexivity|]. split; [by vm_compute|].
  split; [by vm_compute|]. split; [by vm_compute|].
  intros H.
  apply (f_equal (λ r, match r with Ok m => m !! 2%Z | _ => None end)) in H.
  vm_compute in H. discriminate.
Qed.

(** C2, amended. Round trip from an assignment: for every variable set [vs]
    (labels strictly ascending) whose product of numbers of states fits in
    [size_t], and every full assignment [a] over [vs] with every state in
    range, encoding [a] and decoding the index returns [a]. *)
Theorem calcStates_calcState (size_bits : positive) (vs : VarSet) (a : Assignment) :
  ascending vs = true →
  representable size_bits vs = true →
  full_assignment vs a = true →
  states_in_range vs a = true →
  calcState size_bits vs a ≫= calcStates vs = Ok a.
Proof.
  intros Hasc Hrep Hfull Hr.
  pose proof (full_in_range_inhabited vs a Hfull Hr) as Hinh.
  pose proof (mixed_radix_lt vs a Hinh Hr) as Hlt.
  unfold representable in Hrep. apply N.ltb_lt in Hrep.
  unfold calcState. cbn [mbind result_bind].
  rewrite calcState_loop_mixed_radix, wrap_small by lia.
  rewrite calcStates_in_range by (done || by apply ascending_NoDup).
  f_equal. apply map_eq. intros l.
  rewrite decode_map_mixed_radix by done.
  unfold full_assignment in Hfull. apply bool_decide_eq_true in Hfull.
  destruct (decide (l ∈ labels vs)) as [Hin|Hnin].
  - assert (l ∈ dom a) as [s ->]%elem_of_dom; [|done].
    rewrite Hfull. by apply elem_of_list_to_set.
  - symmetry. apply not_elem_of_dom. rewrite Hfull.
    by rewrite elem_of_list_to_set.
Qed.

Lemma calcStates_calcState_witness :
  let vs := [x0; x1; x2] in
  let a : Assignment := <[0%Z := 1]> (<[1%Z := 2]> (<[2%Z := 0]> ∅)) in
  ascending vs = true ∧ representable 64 vs = true ∧
  full_assignment vs a = true ∧ states_in_range vs a = true ∧
  calcState 64 vs a = Ok 5 ∧ calcState 64 vs a ≫= calcStates vs = Ok a.
Proof.
  cbv zeta. repeat (split; [by vm_compute|]).
  apply (calcStates_calcState 64 [x0; x1; x2]); by vm_compute.
Defined.

(** C3, as stated, fails when the product of the numbers of states does not
    fit in [size_t]: on a 64-bit [size_t], [nrStates] of [y0; y1] is 0, so
    that the index 0 is not below it, and yet 0 decodes. *)
Lemma calcStates_overflow_accepts :
  nrStates 64 [y0; y1] ≤ 0 ∧
  calcStates [y0; y1] 0 = Ok (<[0%Z := 0]> (<[1%Z := 0]> ∅)) ∧
  calcStates [y0; y1] 0 ≠ Throw INDEX_OUT_OF_RANGE.
Proof.
  split; [by vm_compute|]. split; [by vm_compute|].
  intros H. vm_compute in H. discriminate.
Qed.

(** C3, amended. For every variable set [vs] whose variables have at least
    one state each and whose product of numbers of states fits in [size_t],
    and every index [i] not below [nrStates vs], [calcStates] fails with
    [INDEX_OUT_OF_RANGE]: its loop runs over all the variables and leaves a
    quotient that is not 0. *)
Theorem calcStates_out_of_range (size_bits : positive) (vs : VarSet) (i : N) :
  inhabited_states vs = true →
  representable size_bits vs = true →
  nrStates size_bits vs ≤ i →
  calcStates vs i = Throw INDEX_OUT_OF_RANGE ∧
  ∃ st q, calcStates_loop vs i ∅ = Ok (st, q) ∧ q ≠ 0.
Proof.
  intros Hinh Hrep Hi.
  rewrite nrStates_representable in Hi by done.
  destruct (calcStates_loop_quotient vs i ∅ Hinh) as [st Hloop].
  apply prod_states_pos in Hinh.
  assert (i / prod_states vs ≠ 0) as Hq.
  { intros Hq. apply N.div_small_iff in Hq; lia. }
  split; [|by exists st, (i / prod_states vs)].
  unfold calcStates. rewrite Hloop. cbn [mbind result_bind].
  by destruct (N.eqb_spec (i / prod_states vs) 0).
Qed.

Lemma calcStates_out_of_range_witness :
  inhabited_states [x0; x1; x2] = true ∧
  representable 64 [x0; x1; x2] = true ∧
  nrStates 64 [x0; x1; x2] ≤ 12 ∧
  calcStates [x0; x1; x2] 12 = Throw INDEX_OUT_OF_RANGE.
Proof.
  repeat (split; [by vm_compute|]).
  apply (calcStates_out_of_range 64 [x0; x1; x2] 12); by vm_compute.
Defined.

(** C4. [calcState] always returns, and what it returns is the index of the
    specified procedure: over the variables in the order of the set,
    [index += stride * state] with state 0 for a variable without an entry,
    then [stride *= states], all in [size_t] arithmetic.  That index is the
    mixed-radix value of the assignment, first variable least significant,
    reduced to [size_t]. *)
Theorem calcState_encode (size_bits : positive) (vs : VarSet) (a : Assignment) :
  calcState size_bits vs a = Ok (encode size_bits vs a) ∧
  encode size_bits vs a = wrap size_bits (mixed_radix vs a).
Proof.
  split; [|apply encode_mixed_radix].
  unfold calcState. by rewrite calcState_loop_mixed_radix, encode_mixed_radix.
Qed.

(** C5, as stated, fails when the product does not fit in [size_t]: the
    product of the numbers of states of [y0; y1] is [2 ^ 64], and a 64-bit
    [nrStates] returns 0. *)
Lemma nrStates_overflow :
  prod_states [y0; y1] = 2 ^ 64 ∧ nrStates 64 [y0; y1] = 0 ∧
  nrStates 64 [y0; y1] ≠ prod_states [y0; y1].
Proof. split; [by vm_compute|split; [by vm_compute|by vm_compute]]. Qed.

(** C5, amended. For every variable set [vs] whose product of numbers of
    states fits in [size_t], [nrStates] returns that product; it returns 1
    for the empty set. *)
Theorem nrStates_prod_states (size_bits : positive) (vs : VarSet) :
  representable size_bits vs = true →
  nrStates size_bits vs = prod_states vs ∧ nrStates size_bits [] = 1.
Proof. intros Hrep. split; [by apply nrStates_representable|done]. Qed.

Lemma nrStates_prod_states_witness :
  representable 64 [x0; x1; x2] = true ∧
  nrStates 64 [x0; x1; x2] = 12 ∧ nrStates 64 [] = 1.
Proof.
  split; [by vm_compute|].
  apply (nrStates_prod_states 64 [x0; x1; x2]). by vm_compute.
Defined.

(** C7, as stated, fails: an entry for a variable that is not in the set
    does not make [calcState] fail.  Over [x0] alone, the assignment that
    only gives state 1 to the variable labelled 5 is encoded as 0. *)
Lemma calcState_unknown_variable :
  let a : Assignment := {[5%Z := 1]} in
  a !! 5%Z = Some 1 ∧ (5%Z ∉ labels [x0]) ∧
  calcState 64 [x0] a = Ok 0 ∧
  calcState 64 [x0] a ≠ Throw INDEX_OUT_OF_RANGE.
Proof.
  cbv zeta. split; [by vm_compute|]. split.
  - intros H%list_elem_of_In. vm_compute in H. by destruct H.
  - split; [by vm_compute|]. intros H. vm_compute in H. discriminate.
Qed.

(** C7, amended. [calcState] signals no condition, whatever the
    assignment: the entries for variables that are not in the set are
    ignored, the index returned being that of the assignment without
    them. *)
Theorem calcState_ignores_unknown (size_bits : positive) (vs : VarSet) (a : Assignment) :
  ∃ index,
    calcState size_bits vs a = Ok index ∧
    calcState size_bits vs (filter (λ e, e.1 ∈ labels vs) a) = Ok index.
Proof.
  exists (calcState_loop size_bits vs a 1 0). split; [done|].
  by rewrite calcState_restrict.
Qed.

(** C10, as stated, fails when the product of the numbers of states does
    not fit in [size_t]: a 64-bit [nrStates] of [y0; y1] is 0, and the index
    of the empty assignment, 0, is not below it. *)
Lemma calcState_overflow_not_below :
  states_in_range [y0; y1] ∅ = true ∧
  calcState 64 [y0; y1] ∅ = Ok 0 ∧ nrStates 64 [y0; y1] = 0 ∧
  ¬ (∃ index, calcState 64 [y0; y1] ∅ = Ok index ∧ index < nrStates 64 [y0; y1]).
Proof.
  repeat (split; [by vm_compute|]).
  intros (index & Heq & Hlt). vm_compute in Heq.
  injection Heq as <-. vm_compute in Hlt. discriminate.
Qed.

(** C10, amended. For every variable set [vs] whose variables have at least
    one state each and whose product of numbers of states fits in [size_t],
    and every assignment, possibly partial, whose states of members of [vs]
    are in range, [calcState] returns (it signals no condition) an index
    below [nrStates vs]. *)
Theorem calcState_lt_nrStates (size_bits : positive) (vs : VarSet) (a : Assignment) :
  inhabited_states vs = true →
  representable size_bits vs = true →
  states_in_range vs a = true →
  ∃ index, calcState size_bits vs a = Ok index ∧ index < nrStates size_bits vs.
Proof.
  intros Hinh Hrep Hr.
  exists (calcState_loop size_bits vs a 1 0). split; [done|].
  rewrite calcState_loop_mixed_radix, nrStates_representable by done.
  pose proof (mixed_radix_lt vs a Hinh Hr).
  pose proof (wrap_le size_bits (mixed_radix vs a)). lia.
Qed.

Lemma calcState_lt_nrStates_witness :
  let a : Assignment := {[1%Z := 2]} in
  inhabited_states [x0; x1; x2] = true ∧
  representable 64 [x0; x1; x2] = true ∧
  states_in_range [x0; x1; x2] a = true ∧
  ∃ index, calcState 64 [x0; x1; x2] a = Ok index ∧ index < nrStates 64 [x0; x1; x2].
Proof.
  cbv zeta. repeat (split; [by vm_compute|]).
  apply (calcState_lt_nrStates 64 [x0; x1; x2]); by vm_compute.
Defined.

(** ** The engine claims *)

Section EngineFacts.

Context {Real Factor FactorGraph : Type}.
Context `{!FactorGraphOps FactorGraph Factor, !FactorOps Real Factor}.

Implicit Types this : ExactInf Real Factor FactorGraph.

Lemma beliefV_unfold i this :
  beliefV i this = (at_index (_beliefsV this) i, this).
Proof. done. Qed.

Lemma beliefF_unfold I this :
  beliefF I this = (at_index (_beliefsF this) I, this).
Proof. done. Qed.

Lemma belief_unfold n this :
  belief n this
  = (j ← findVar (fg this) n; at_index (_beliefsV this) j, this).
Proof.
  unfold belief, beliefV, read, lift, mbind, Method_bind, result_bind.
  by destruct (findVar (fg this) n).
Qed.

(** C6. The operations that only make sense for an iterative algorithm
    throw [NOT_IMPLEMENTED] in every state of the engine, which they leave
    as it was: [init] over a variable set, [maxDiff] and [Iterations]. *)
Theorem iterative_operations_not_implemented (this : ExactInf Real Factor FactorGraph) (ns : VarSet) :
  init_VarSet ns this = (Throw NOT_IMPLEMENTED, this) ∧
  maxDiff this = (Throw NOT_IMPLEMENTED, this) ∧
  Iterations this = (Throw NOT_IMPLEMENTED, this).
Proof. done. Qed.





(** C9. The belief queries are read-only: whatever they return, they leave
    the engine as it was; [logZ] returns the stored value, [beliefV] and
    [beliefF] the table stored at the position asked for, and [belief] of a
    variable the table stored at the position of that variable in the
    graph. *)
Theorem belief_queries_read_only (this : ExactInf Real Factor FactorGraph) (n : Var) (i I : N) :
  ((belief n this).2 = this ∧ (beliefV i this).2 = this ∧
   (beliefF I this).2 = this ∧ logZ this = (Ok (_logZ this), this)) ∧
  (∀ b, _beliefsV this !! N.to_nat i = Some b → beliefV i this = (Ok b, this)) ∧
  (∀ b, _beliefsF this !! N.to_nat I = Some b → beliefF I this = (Ok b, this)) ∧
  (∀ j b, findVar (fg this) n = Ok j →
          _beliefsV this !! N.to_nat j = Some b →
          belief n this = (Ok b, this)).
Proof.
  rewrite belief_unfold, !beliefV_unfold, !beliefF_unfold.
  split; [split; [|done]|].
  - by destruct (findVar (fg this) n).
  - unfold at_index. split; [by intros b ->|]. split; [by intros b ->|].
    intros j b -> Hb. unfold mbind, result_bind. by rewrite Hb.
Qed.

End EngineFacts.

(** The single-variable example of the specification: belief
    [[2/6, 1/6, 3/6]] and [logZ = ln 6]. *)
Example run_single_variable :
  ∃ first,
    run single_engine = (Ok run_metric, first) ∧
    _beliefsV first = [mkTable [vC] [Qmake 1 3; Qmake 1 6; Qmake 1 2]] ∧
    _logZ first = Ln (Num (Qmake 6 1)).
Proof. eexists. split; [by vm_compute|]. by split. Qed.


Lemma belief_queries_read_only_witness :
  findVar (fg demo_engine) x1 = Ok 1 ∧
  _beliefsV demo_engine !! N.to_nat 1 = Some [2; 1; 3]%Z ∧
  belief x1 demo_engine = (Ok [2; 1; 3]%Z, demo_engine).
Proof.
  split; [reflexivity|]. split; [reflexivity|].
  apply (belief_queries_read_only demo_engine x1 0 0) with (j := 1);
    reflexivity.
Defined.

(** * Further properties of the indexing functions *)

Lemma prod_states_app vs1 vs2 :
  prod_states (vs1 ++ vs2) = prod_states vs1 * prod_states vs2.
Proof.
  induction vs1 as [|n rest IH]; cbn [app prod_states]; [lia|].
  rewrite IH. lia.
Qed.

Lemma calcStates_loop_uninhabited vs i st :
  inhabited_states vs = false → calcStates_loop vs i st = Undefined.
Proof.
  revert i st. induction vs as [|n rest IH]; intros i st H; [done|].
  cbn [inhabited_states forallb] in H. cbn [calcStates_loop].
  destruct (N.eqb_spec (states n) 0) as [|Hn]; [done|].
  apply IH. apply andb_false_iff in H as [H%N.ltb_ge|H]; [lia|done].
Qed.

Lemma mixed_radix_state_of vs a a' :
  (∀ n, n ∈ vs → state_of a n = state_of a' n) →
  mixed_radix vs a = mixed_radix vs a'.
Proof.
  induction vs as [|n rest IH]; intros H; cbn [mixed_radix]; [done|].
  rewrite (H n) by apply list_elem_of_here.
  rewrite IH; [done|]. intros m Hm. apply H. by apply list_elem_of_further.
Qed.

Lemma states_in_range_insert_fresh vs a l x :
  l ∉ labels vs →
  states_in_range vs (<[l := x]> a) = states_in_range vs a.
Proof.
  induction vs as [|n rest IH]; intros Hl; [done|].
  unfold labels in Hl. rewrite fmap_cons, not_elem_of_cons in Hl.
  destruct Hl as [Hne Hl].
  cbn [states_in_range forallb]. fold (states_in_range rest (<[l := x]> a)).
  fold (states_in_range rest a).
  rewrite lookup_insert_ne by done. by rewrite IH.
Qed.

Lemma decode_map_in_range vs i :
  NoDup (labels vs) → inhabited_states vs = true →
  states_in_range vs (decode_map vs i) = true.
Proof.
  revert i. induction vs as [|n rest IH]; intros i Hnd Hinh; [done|].
  unfold labels in Hnd. rewrite fmap_cons in Hnd.
  apply NoDup_cons in Hnd as [Hfresh Hnd].
  cbn [inhabited_states forallb] in Hinh.
  apply andb_true_iff in Hinh as [Hn%N.ltb_lt Hinh].
  cbn [decode_map states_in_range forallb].
  fold (states_in_range rest (<[label n := i mod states n]> (decode_map rest (i / states n)))).
  rewrite lookup_insert_eq, states_in_range_insert_fresh by done.
  rewrite IH by done. rewrite andb_true_r. apply N.ltb_lt, N.mod_lt. lia.
Qed.

Lemma decode_map_dom vs i :
  dom (decode_map vs i) = list_to_set (labels vs).
Proof.
  revert i. induction vs as [|n rest IH]; intros i; cbn [decode_map].
  - by rewrite dom_empty_L.
  - rewrite dom_insert_L, IH. unfold labels. by rewrite fmap_cons.
Qed.

Lemma decode_map_full vs a :
  full_assignment vs a = true → states_in_range vs a = true →
  decode_map vs (mixed_radix vs a) = a.
Proof.
  intros Hfull Hr.
  pose proof (full_in_range_inhabited vs a Hfull Hr) as Hinh.
  apply map_eq. intros l. rewrite decode_map_mixed_radix by done.
  unfold full_assignment in Hfull. apply bool_decide_eq_true in Hfull.
  destruct (decide (l ∈ labels vs)) as [Hin|Hnin].
  - assert (l ∈ dom a) as [s ->]%elem_of_dom; [|done].
    rewrite Hfull. by apply elem_of_list_to_set.
  - symmetry. apply not_elem_of_dom. rewrite Hfull.
    by rewrite elem_of_list_to_set.
Qed.

(** X1. [calcStates] accepts exactly the indices below the exact product of
    the numbers of states: over variables with at least one state each it
    returns an assignment for an index below the product and throws for
    every other index, whatever the width of [size_t]. *)
Theorem calcStates_accepts_below_product (vs : VarSet) (i : N) :
  inhabited_states vs = true →
  if i <? prod_states vs
  then ∃ a, calcStates vs i = Ok a
  else calcStates vs i = Throw INDEX_OUT_OF_RANGE.
Proof.
  intros Hinh.
  destruct (calcStates_loop_quotient vs i ∅ Hinh) as [st Hloop].
  unfold calcStates. rewrite Hloop. cbn [mbind result_bind].
  apply prod_states_pos in Hinh.
  destruct (N.ltb_spec i (prod_states vs)) as [Hlt|Hge].
  - exists st. by rewrite N.div_small.
  - destruct (N.eqb_spec (i / prod_states vs) 0) as [Hq|_]; [|done].
    apply N.div_small_iff in Hq; lia.
Qed.

Lemma calcStates_accepts_below_product_witness :
  inhabited_states [x0; x1; x2] = true ∧
  (∃ a, calcStates [x0; x1; x2] 11 = Ok a) ∧
  calcStates [x0; x1; x2] 12 = Throw INDEX_OUT_OF_RANGE.
Proof.
  split; [reflexivity|]. split.
  - apply (calcStates_accepts_below_product [x0; x1; x2] 11). reflexivity.
  - apply (calcStates_accepts_below_product [x0; x1; x2] 12). reflexivity.
Defined.

(** X2. What [calcStates] returns is a full assignment over the set with
    every state in range: it has an entry for each variable of the set and
    for no other label, and each entry is below the number of states of its
    variable. *)
Theorem calcStates_full_in_range (vs : VarSet) (i : N) (a : Assignment) :
  ascending vs = true →
  calcStates vs i = Ok a →
  full_assignment vs a = true ∧ states_in_range vs a = true.
Proof.
  intros Hasc Ha. apply ascending_NoDup in Hasc.
  destruct (inhabited_states vs) eqn:Hinh.
  - unfold calcStates in Ha.
    rewrite calcStates_loop_decode_map in Ha by done.
    cbn [mbind result_bind] in Ha.
    destruct (i / prod_states vs =? 0); [|done].
    cbn in Ha. injection Ha as <-. rewrite (right_id_L ∅ (∪)). split.
    + apply bool_decide_eq_true, decode_map_dom.
    + by apply decode_map_in_range.
  - unfold calcStates in Ha. by rewrite calcStates_loop_uninhabited in Ha.
Qed.

Lemma calcStates_full_in_range_witness :
  ∃ a, ascending [x0; x1; x2] = true ∧ calcStates [x0; x1; x2] 7 = Ok a ∧
       full_assignment [x0; x1; x2] a = true ∧
       states_in_range [x0; x1; x2] a = true.
Proof.
  exists (<[0%Z := 1]> (<[1%Z := 0]> (<[2%Z := 1]> ∅))).
  split; [reflexivity|]. split; [by vm_compute|].
  apply (calcStates_full_in_range [x0; x1; x2] 7); [reflexivity|by vm_compute].
Defined.

(** X3. A variable without an entry counts as being in state 0: giving
    state 0 to a label that the assignment does not mention leaves the
    index that [calcState] returns unchanged. *)
Theorem calcState_absent_is_zero (size_bits : positive) (vs : VarSet)
    (a : Assignment) (l : Z) :
  a !! l = None →
  calcState size_bits vs (<[l := 0]> a) = calcState size_bits vs a.
Proof.
  intros Hl. unfold calcState. rewrite !calcState_loop_mixed_radix.
  do 2 f_equal. apply mixed_radix_state_of. intros n _. unfold state_of.
  destruct (decide (l = label n)) as [->|Hne].
  - by rewrite lookup_insert_eq, Hl.
  - by rewrite lookup_insert_ne.
Qed.

Lemma calcState_absent_is_zero_witness :
  let a : Assignment := {[1%Z := 2]} in
  a !! 0%Z = None ∧
  calcState 64 [x0; x1; x2] (<[0%Z := 0]> a) = calcState 64 [x0; x1; x2] a.
Proof.
  cbv zeta. split; [reflexivity|].
  apply (calcState_absent_is_zero 64 [x0; x1; x2]). reflexivity.
Defined.

(** X4. The first variable of the set varies fastest: the index over
    [n :: rest] is the state of [n] plus the number of states of [n] times
    the index over [rest], in [size_t] arithmetic. *)
Theorem calcState_cons (size_bits : positive) (n : Var) (rest : VarSet)
    (a : Assignment) :
  ∃ index,
    calcState size_bits rest a = Ok index ∧
    calcState size_bits (n :: rest) a
    = Ok (wrap size_bits (state_of a n + states n * index)).
Proof.
  exists (calcState_loop size_bits rest a 1 0). split; [done|].
  unfold calcState. rewrite !calcState_loop_mixed_radix. cbn [mixed_radix].
  f_equal. unfold wrap.
  rewrite <- (N.Div0.add_mod_idemp_r _ (states n * (_ mod _))).
  rewrite N.Div0.mul_mod_idemp_r.
  by rewrite N.Div0.add_mod_idemp_r.
Qed.

(** X5. The number of joint states of a set laid after another is the
    product of the two numbers of joint states, in [size_t] arithmetic. *)
Theorem nrStates_app (size_bits : positive) (vs1 vs2 : VarSet) :
  nrStates size_bits (vs1 ++ vs2)
  = wrap size_bits (nrStates size_bits vs1 * nrStates size_bits vs2).
Proof.
  rewrite !nrStates_wrap, prod_states_app. unfold wrap.
  by rewrite <- N.Div0.mul_mod.
Qed.

(** X6. Over a set whose product of numbers of states fits in [size_t],
    [calcState] gives distinct indices to distinct full assignments with
    states in range. *)
Theorem calcState_injective (size_bits : positive) (vs : VarSet)
    (a b : Assignment) :
  representable size_bits vs = true →
  full_assignment vs a = true → states_in_range vs a = true →
  full_assignment vs b = true → states_in_range vs b = true →
  calcState size_bits vs a = calcState size_bits vs b →
  a = b.
Proof.
  intros Hrep Hfa Hra Hfb Hrb Heq.
  unfold representable in Hrep. apply N.ltb_lt in Hrep.
  pose proof (mixed_radix_lt vs a (full_in_range_inhabited vs a Hfa Hra) Hra).
  pose proof (mixed_radix_lt vs b (full_in_range_inhabited vs b Hfb Hrb) Hrb).
  unfold calcState in Heq. injection Heq as Heq.
  rewrite !calcState_loop_mixed_radix, !wrap_small in Heq by lia.
  rewrite <- (decode_map_full vs a), <- (decode_map_full vs b) by done.
  by rewrite Heq.
Qed.

Lemma calcState_injective_witness :
  let a : Assignment := <[0%Z := 1]> (<[1%Z := 2]> (<[2%Z := 0]> ∅)) in
  let b : Assignment := <[2%Z := 0]> (<[1%Z := 2]> (<[0%Z := 1]> ∅)) in
  representable 64 [x0; x1; x2] = true ∧
  full_assignment [x0; x1; x2] a = true ∧
  states_in_range [x0; x1; x2] a = true ∧
  calcState 64 [x0; x1; x2] a = calcState 64 [x0; x1; x2] b ∧
  a = b.
Proof.
  cbv zeta. repeat (split; [by vm_compute|]).
  apply (calcState_injective 64 [x0; x1; x2]); by vm_compute.
Defined.

(** X7. A variable with no state: [nrStates] of a set that has one is 0,
    and [calcStates] divides by zero on every index, so that no index is
    accepted and none is rejected with a condition. *)
Theorem no_state_undefined (size_bits : positive) (vs : VarSet) (i : N) :
  inhabited_states vs = false →
  nrStates size_bits vs = 0 ∧ calcStates vs i = Undefined.
Proof.
  intros H. split.
  - rewrite nrStates_wrap.
    destruct (prod_states vs) as [|p] eqn:Hp; [done|].
    assert (inhabited_states vs = true); [|congruence].
    apply prod_states_pos. lia.
  - unfold calcStates. by rewrite calcStates_loop_uninhabited.
Qed.

Lemma no_state_undefined_witness :
  inhabited_states [x0; mkVar 1 0; x2] = false ∧
  nrStates 64 [x0; mkVar 1 0; x2] = 0 ∧
  calcStates [x0; mkVar 1 0; x2] 3 = Undefined.
Proof.
  split; [reflexivity|].
  apply (no_state_undefined 64 [x0; mkVar 1 0; x2] 3). reflexivity.
Defined.

(** X8. [nrStates] does not check for overflow: for every set it returns
    the product of the numbers of states modulo [2 ^ size_bits]. *)
Theorem nrStates_modulo (size_bits : positive) (vs : VarSet) :
  nrStates size_bits vs = prod_states vs mod 2 ^ Npos size_bits.
Proof. apply nrStates_wrap. Qed.

(** * Property sets: facts *)

Lemma string_app_cons (c : ascii) (s1 s2 : string) :
  String c s1 +:+ s2 = String c (s1 +:+ s2).
Proof. reflexivity. Qed.

Lemma string_app_nil_l (s : string) : EmptyString +:+ s = s.
Proof. reflexivity. Qed.

Lemma string_app_assoc (s1 s2 s3 : string) :
  (s1 +:+ s2) +:+ s3 = s1 +:+ s2 +:+ s3.
Proof.
  induction s1 as [|c s1 IH]; [done|]. rewrite !string_app_cons. by f_equal.
Qed.

Lemma string_app_nil_r (s : string) : s +:+ EmptyString = s.
Proof.
  induction s as [|c s IH]; [done|]. rewrite string_app_cons. by f_equal.
Qed.

Lemma string_app_snoc (s1 s2 : string) (c : ascii) :
  (s1 +:+ String c EmptyString) +:+ s2 = s1 +:+ String c s2.
Proof. by rewrite string_app_assoc, string_app_cons, string_app_nil_l. Qed.

Lemma level_after_app v1 v2 level :
  level_after (v1 +:+ v2) level = level_after v1 level ≫= level_after v2.
Proof.
  revert level. induction v1 as [|c v1 IH]; intros level; [done|].
  rewrite string_app_cons. cbn [level_after].
  repeat case_match; try done; apply IH.
Qed.

Lemma plain_level_after v level : plain v = true → level_after v level = Some level.
Proof.
  induction v as [|c v IH]; cbn; [done|].
  intros [[[H1 H2]%andb_true_iff H3]%andb_true_iff H4]%andb_true_iff.
  apply negb_true_iff in H1, H2, H3. rewrite H1, H2, H3. cbn. by apply IH.
Qed.

Lemma plain_value_ok v : plain v = true → value_ok v = true.
Proof.
  intros H. apply bool_decide_eq_true. by apply plain_level_after.
Qed.

Section PropertyFacts.

Context {Double : Type}.

Implicit Types ps : PropertySet Double.
Implicit Types rest key value k v : string.

(** The scan for [=] runs over a text without [=] and stops at the [=]
    that follows it. *)
Lemma scan_key_app k rest key ps :
  no_equals k = true →
  scan_key (k +:+ String "=" rest) key ps
  = scan_value rest (key +:+ k) EmptyString 0%Z ps.
Proof.
  revert key. induction k as [|c k IH]; intros key Hk.
  - rewrite string_app_nil_l, string_app_nil_r. cbn [scan_key]. done.
  - rewrite string_app_cons. cbn [scan_key]. cbn in Hk. apply andb_true_iff in Hk as [Hc%negb_true_iff Hk].
    rewrite Hc, IH by done. by rewrite string_app_snoc.
Qed.

(** The scan for a comma runs over a text that keeps it going, the level
    following the brackets. *)
Lemma scan_value_app v rest key value level level' ps :
  level_after v level = Some level' →
  scan_value (v +:+ rest) key value level ps
  = scan_value rest key (value +:+ v) level' ps.
Proof.
  revert value level. induction v as [|c v IH]; intros value level Hv.
  - cbn in Hv. injection Hv as <-.
    by rewrite string_app_nil_l, string_app_nil_r.
  - rewrite string_app_cons. cbn [scan_value]. cbn [level_after] in Hv.
    destruct (Ascii.eqb c "[").
    { destruct (level =? INT_MAX)%Z; [done|].
      rewrite (IH _ _ Hv). by rewrite string_app_snoc. }
    destruct (Ascii.eqb c "]").
    { destruct (level =? INT_MIN)%Z; [done|].
      rewrite (IH _ _ Hv). by rewrite string_app_snoc. }
    destruct (Ascii.eqb c "," && (level =? 0)%Z); [done|].
    rewrite (IH _ _ Hv). by rewrite string_app_snoc.
Qed.

Lemma tokens_key k rest ps :
  key_ok k = true →
  tokens (k +:+ String "=" rest) ps = scan_value rest k EmptyString 0%Z ps.
Proof.
  destruct k as [|c k]; [done|]. intros Hk.
  rewrite string_app_cons. cbn [tokens]. by rewrite scan_key_app.
Qed.

(** One entry, last of the text. *)
Lemma tokens_last k v ps :
  entry_ok (k, v) = true →
  tokens (k +:+ "=" +:+ v) ps = (Returns, PropertySet_Set k v ps).
Proof.
  intros [Hk Hv%bool_decide_eq_true]%andb_true_iff. cbn in Hk, Hv.
  change ("=" +:+ v) with (String "=" v). rewrite tokens_key by done.
  rewrite <- (string_app_nil_r v) at 1.
  by rewrite (scan_value_app _ _ _ _ _ _ _ Hv).
Qed.

(** One entry and the comma after it. *)
Lemma tokens_comma k v rest ps :
  entry_ok (k, v) = true →
  tokens (k +:+ "=" +:+ v +:+ "," +:+ rest) ps
  = tokens rest (PropertySet_Set k v ps).
Proof.
  intros [Hk Hv%bool_decide_eq_true]%andb_true_iff. cbn in Hk, Hv.
  change ("=" +:+ v +:+ "," +:+ rest) with (String "=" (v +:+ "," +:+ rest)).
  rewrite tokens_key by done.
  by rewrite (scan_value_app _ _ _ _ _ _ _ Hv).
Qed.

Lemma tokens_text_more k v es ps :
  entry_ok (k, v) = true → forallb entry_ok es = true →
  tokens (k +:+ "=" +:+ v +:+ text_more es) ps
  = (Returns, bind_all es (PropertySet_Set k v ps)).
Proof.
  revert k v ps. induction es as [|[k' v'] es IH]; intros k v ps Hkv Hes.
  - cbn [text_more]. rewrite string_app_nil_r. by apply tokens_last.
  - cbn [forallb] in Hes. apply andb_true_iff in Hes as [Hkv' Hes].
    cbn [text_more]. rewrite tokens_comma by done. by rewrite IH.
Qed.

Lemma tokens_text es ps :
  forallb entry_ok es = true →
  tokens (text es) ps = (Returns, bind_all es ps).
Proof.
  destruct es as [|[k v] es]; [done|]. cbn [forallb text].
  intros [Hkv Hes]%andb_true_iff. by apply tokens_text_more.
Qed.

Lemma tokens_text_more_comma k v es rest ps :
  entry_ok (k, v) = true → forallb entry_ok es = true →
  tokens (k +:+ "=" +:+ v +:+ text_more es +:+ "," +:+ rest) ps
  = tokens rest (bind_all es (PropertySet_Set k v ps)).
Proof.
  revert k v ps. induction es as [|[k' v'] es IH]; intros k v ps Hkv Hes.
  - cbn [text_more]. by apply tokens_comma.
  - cbn [forallb] in Hes. apply andb_true_iff in Hes as [Hkv' Hes].
    cbn [text_more]. rewrite !string_app_assoc.
    rewrite tokens_comma by done. by rewrite IH.
Qed.

End PropertyFacts.

(** *** The bracket test of [operator>>] *)

Lemma string_length_app (s1 s2 : string) :
  String.length (s1 +:+ s2) = (String.length s1 + String.length s2)%nat.
Proof.
  induction s1 as [|c s1 IH]; [done|].
  rewrite string_app_cons. cbn [String.length]. by rewrite IH.
Qed.

Lemma string_get_app_end (s1 s2 : string) (c : ascii) :
  String.get (String.length s1) (s1 +:+ String c s2) = Some c.
Proof. induction s1 as [|c' s1 IH]; [done|]. by rewrite string_app_cons. Qed.

Lemma string_substring_app (s1 s2 : string) :
  String.substring 0 (String.length s1) (s1 +:+ s2) = s1.
Proof.
  induction s1 as [|c s1 IH].
  - by destruct s2.
  - rewrite string_app_cons. cbn [String.length String.substring]. by f_equal.
Qed.

Lemma string_split_last (s : string) (b : ascii) :
  String.get (String.length s - 1) s = Some b →
  s = String.substring 0 (String.length s - 1) s +:+ String b EmptyString.
Proof.
  induction s as [|c s IH]; [done|].
  destruct s as [|c' s'].
  - cbn. by intros [= ->].
  - intros Hb.
    replace (String.length (String c (String c' s')) - 1)%nat
      with (S (String.length (String c' s') - 1)) in * by (cbn; lia).
    cbn [String.get] in Hb. cbn [String.substring].
    rewrite string_app_cons. f_equal. by apply IH.
Qed.

(** A word passes the test exactly when it is [[body]] for some [body],
    which is then the text that the loops run over. *)
Lemma bracket_test_passes (body : string) :
  let s := "[" +:+ body +:+ "]" in
  (String.length s <? 2)%nat
  || negb (bool_decide (String.get 0 s = Some "["%char))
  || negb (bool_decide (String.get (String.length s - 1) s = Some "]"%char))
  = false ∧
  String.substring 1 (String.length s - 1 - 1) s = body.
Proof.
  cbv zeta. change ("[" +:+ body +:+ "]") with (String "[" (body +:+ "]")).
  cbn [String.length String.get].
  rewrite string_length_app. cbn [String.length].
  replace (S (String.length body + 1) - 1)%nat
    with (String.length body + 1)%nat by lia.
  replace (String.length body + 1 - 1)%nat with (String.length body) by lia.
  split.
  - rewrite bool_decide_eq_true_2 by done.
    replace (String.length body + 1)%nat with (S (String.length body)) by lia.
    cbn [String.get]. change "]" with (String "]" EmptyString).
    by rewrite string_get_app_end, bool_decide_eq_true_2.
  - cbn [String.substring]. apply string_substring_app.
Qed.

Lemma bracket_test_fails (s : string) :
  (String.length s <? 2)%nat
  || negb (bool_decide (String.get 0 s = Some "["%char))
  || negb (bool_decide (String.get (String.length s - 1) s = Some "]"%char))
  = false →
  ∃ body, s = "[" +:+ body +:+ "]".
Proof.
  intros [[Hlen H0]%orb_false_iff Hlast]%orb_false_iff.
  apply Nat.ltb_ge in Hlen.
  apply negb_false_iff, bool_decide_eq_true in H0, Hlast.
  destruct s as [|c s]; [done|]. cbn in H0. injection H0 as ->.
  cbn [String.length] in *.
  exists (String.substring 0 (String.length s - 1) s).
  change ("[" +:+ ?x) with (String "[" x). f_equal.
  destruct s as [|c s]; [cbn in Hlen; lia|].
  apply string_split_last.
  replace (S (String.length (String c s)) - 1)%nat
    with (S (String.length (String c s) - 1)) in Hlast by (cbn; lia).
  exact Hlast.
Qed.

Section ReadFacts.

Context {Double : Type}.

Implicit Types ps : PropertySet Double.

Lemma read_bracketed (body : string) :
  read_PropertySet (Double := Double) ("[" +:+ body +:+ "]") = tokens body ∅.
Proof.
  unfold read_PropertySet.
  destruct (bracket_test_passes body) as [-> ->]. done.
Qed.

Lemma scan_key_no_equals rest key ps :
  no_equals rest = true →
  scan_key rest key ps = (Throws MALFORMED_PROPERTY, ps).
Proof.
  revert key. induction rest as [|c rest IH]; intros key H; [done|].
  cbn in H. apply andb_true_iff in H as [Hc%negb_true_iff H].
  cbn [scan_key]. rewrite Hc. by apply IH.
Qed.

End ReadFacts.

(** *** The entries of a map in the order of the names *)

Lemma keys_NoDup {A : Type} (m : gmap string A) : NoDup (keys m).
Proof.
  unfold keys. rewrite merge_sort_Permutation. apply NoDup_elements.
Qed.

Lemma elem_of_keys {A : Type} (m : gmap string A) (k : string) :
  k ∈ keys m ↔ is_Some (m !! k).
Proof.
  unfold keys. rewrite merge_sort_Permutation, elem_of_elements.
  apply elem_of_dom.
Qed.

Lemma keys_fmap {A B : Type} (f : A → B) (m : gmap string A) :
  keys (f <$> m) = keys m.
Proof. unfold keys. by rewrite dom_fmap_L. Qed.

Lemma entries_fmap {A B : Type} (f : A → B) (m : gmap string A) :
  entries (f <$> m) = prod_map id f <$> entries m.
Proof.
  unfold entries. rewrite keys_fmap.
  induction (keys m) as [|k l IH]; [done|].
  cbn [omap list_omap]. rewrite lookup_fmap, IH.
  by destruct (m !! k).
Qed.

Lemma entries_fst {A : Type} (m : gmap string A) : (entries m).*1 = keys m.
Proof.
  unfold entries.
  assert (∀ k, k ∈ keys m → is_Some (m !! k)) as H
    by (intros k; apply elem_of_keys).
  induction (keys m) as [|k l IH]; [done|].
  cbn [omap list_omap].
  destruct (H k) as [x ->]; [apply list_elem_of_here|].
  cbn. f_equal. apply IH. intros k' Hk'. apply H. by apply list_elem_of_further.
Qed.

Lemma elem_of_entries {A : Type} (m : gmap string A) (k : string) (x : A) :
  (k, x) ∈ entries m ↔ m !! k = Some x.
Proof.
  unfold entries. rewrite list_elem_of_omap. split.
  - intros (k' & _ & Hk'). destruct (m !! k') eqn:E; [|done].
    cbn in Hk'. by simplify_eq.
  - intros Hk. exists k. split; [|by rewrite Hk].
    apply elem_of_keys. by rewrite Hk.
Qed.

Lemma entries_Permutation {A : Type} (m : gmap string A) :
  entries m ≡ₚ map_to_list m.
Proof.
  apply NoDup_Permutation.
  - apply (NoDup_fmap_1 fst). rewrite entries_fst. apply keys_NoDup.
  - apply NoDup_map_to_list.
  - intros [k x]. by rewrite elem_of_entries, elem_of_map_to_list.
Qed.

(** The names come in ascending order. *)
Lemma entries_sorted {A : Type} (m : gmap string A) :
  Sorted String.le (entries m).*1.
Proof. rewrite entries_fst. apply (Sorted_merge_sort _). Qed.

Section BindFacts.

Context {Double : Type}.

Implicit Types ps : PropertySet Double.

Lemma bind_all_list_to_map (es : list (string * string)) ps :
  NoDup es.*1 →
  bind_all es ps = list_to_map (prod_map id any_string <$> es) ∪ ps.
Proof.
  unfold bind_all. revert ps. induction es as [|[k v] es IH]; intros ps Hnd.
  - cbn. by rewrite (left_id_L ∅ (∪)).
  - rewrite fmap_cons in Hnd. apply NoDup_cons in Hnd as [Hk Hnd].
    cbn [foldl]. rewrite IH by done. unfold PropertySet_Set. cbn.
    rewrite <- insert_union_l. symmetry. apply insert_union_r.
    apply not_elem_of_list_to_map_1.
    rewrite <- list_fmap_compose.
    by replace (fst ∘ prod_map id any_string) with (@fst string string).
Qed.

(** Binding the entries of a map of strings gives the map back. *)
Lemma bind_all_entries (m : gmap string string) :
  bind_all (entries m) ∅ = (any_string <$> m : PropertySet Double).
Proof.
  rewrite bind_all_list_to_map
    by (rewrite entries_fst; apply keys_NoDup).
  rewrite (right_id_L ∅ (∪)), <- entries_fmap.
  rewrite <- (list_to_map_to_list (any_string <$> m)) at 2.
  apply list_to_map_proper; [|apply entries_Permutation].
  rewrite entries_fst. apply keys_NoDup.
Qed.

End BindFacts.

(** *** Printing a set of strings, and the sets that [operator>>] builds *)

Section PrintFacts.

Context {Double : Type} (print_double : Double → string).

Implicit Types ps : PropertySet Double.

Lemma print_entries_strings (first : bool) (es : list (string * string)) os :
  print_entries first
    (prod_map id (print_any print_double ∘ any_string) <$> es) os
  = (Returns, os +:+ (if first then text es else text_more es)).
Proof.
  revert first os. induction es as [|[k v] es IH]; intros first os.
  - destruct first; cbn [fmap list_fmap print_entries text text_more];
      by rewrite string_app_nil_r.
  - rewrite fmap_cons. cbn [prod_map fst snd id print_entries compose print_any].
    rewrite IH. f_equal.
    destruct first; cbn [text text_more]; by rewrite !string_app_assoc.
Qed.

Lemma print_PropertySet_strings (m : gmap string string) os :
  print_PropertySet print_double (any_string <$> m) os
  = (Returns, os +:+ "[" +:+ text (entries m) +:+ "]").
Proof.
  unfold print_PropertySet. cbn [print_any].
  rewrite <- map_fmap_compose, entries_fmap, print_entries_strings.
  by rewrite !string_app_assoc.
Qed.

Lemma PropertySet_ok_spec ps : PropertySet_ok ps = true ↔ strings_only ps.
Proof.
  unfold PropertySet_ok, strings_only. rewrite forallb_forall. split.
  - intros H k x Hk.
    specialize (H (k, x)). cbn in H.
    destruct x; try (by discriminate H; apply list_elem_of_In, elem_of_map_to_list).
    eexists. split; [done|].
    by apply H, list_elem_of_In, elem_of_map_to_list.
  - intros H [k x] Hin%list_elem_of_In%elem_of_map_to_list.
    by destruct (H k x Hin) as (v & -> & Hv).
Qed.

Lemma strings_only_fmap ps :
  strings_only ps →
  ∃ m : gmap string string,
    ps = any_string <$> m ∧ forallb entry_ok (entries m) = true.
Proof.
  intros H.
  exists (omap (λ x, match x with any_string v => Some v | _ => None end) ps).
  split.
  - apply map_eq. intros k. rewrite lookup_fmap, lookup_omap.
    destruct (ps !! k) as [x|] eqn:Hk; [|done].
    by destruct (H k x Hk) as (v & -> & _).
  - apply forallb_forall. intros [k v] Hin%list_elem_of_In%elem_of_entries.
    rewrite lookup_omap in Hin.
    destruct (ps !! k) as [x|] eqn:Hk; [|done].
    destruct (H k x Hk) as (v' & -> & Hv). cbn in Hin. by simplify_eq.
Qed.

Lemma strings_only_Set key value ps :
  key_ok key = true → value_ok value = true → strings_only ps →
  strings_only (PropertySet_Set key value ps).
Proof.
  intros Hk Hv H k x. unfold PropertySet_Set.
  destruct (decide (key = k)) as [->|Hne].
  - rewrite lookup_insert_eq. intros [= <-]. exists value. split; [done|].
    unfold entry_ok. cbn. by rewrite Hk, Hv.
  - rewrite lookup_insert_ne by done. apply H.
Qed.

Lemma key_ok_snoc key (c : ascii) :
  key_ok key = true → Ascii.eqb c "="%char = false →
  key_ok (key +:+ String c EmptyString) = true.
Proof.
  destruct key as [|c0 key]; [done|]. rewrite string_app_cons. cbn [key_ok].
  intros H Hc. induction key as [|c1 key IH].
  - rewrite string_app_nil_l. cbn. by rewrite Hc.
  - rewrite string_app_cons. cbn in *.
    apply andb_true_iff in H as [-> H]. cbn. by apply IH.
Qed.

Lemma level_after_snoc value (c : ascii) level :
  level_after value 0%Z = Some level →
  level_after (value +:+ String c EmptyString) 0%Z
  = level_after (String c EmptyString) level.
Proof. intros H. by rewrite level_after_app, H. Qed.

(** Whatever the text and however the scan ends, the set holds strings
    under well-formed names, each a well-formed value. *)
Lemma tokens_strings_only rest :
  (∀ ps, strings_only ps → strings_only (tokens rest ps).2) ∧
  (∀ key ps, key_ok key = true → strings_only ps →
             strings_only (scan_key rest key ps).2) ∧
  (∀ key value level ps,
     key_ok key = true → level_after value 0%Z = Some level →
     strings_only ps →
     strings_only (scan_value rest key value level ps).2).
Proof.
  induction rest as [|c rest (IHt & IHk & IHv)].
  - split; [done|]. split; [done|].
    intros key value level ps Hk Hv Hps. cbn [scan_value].
    destruct (Z.eqb_spec level 0) as [->|]; [|done].
    cbn. apply strings_only_Set; [done| |done]. by apply bool_decide_eq_true.
  - split; [|split].
    + intros ps Hps. cbn [tokens]. by apply IHk.
    + intros key ps Hk Hps. cbn [scan_key].
      destruct (Ascii.eqb c "=") eqn:Hc; [by apply IHv|].
      apply IHk; [|done]. by apply key_ok_snoc.
    + intros key value level ps Hk Hv Hps. cbn [scan_value].
      pose proof (level_after_snoc value c level Hv) as Hsnoc.
      cbn [level_after] in Hsnoc.
      destruct (Ascii.eqb c "[").
      { destruct (level =? INT_MAX)%Z; [done|]. by apply IHv. }
      destruct (Ascii.eqb c "]").
      { destruct (level =? INT_MIN)%Z; [done|]. by apply IHv. }
      destruct (Ascii.eqb c ","); cbn [andb] in *; [|by apply IHv].
      destruct (Z.eqb_spec level 0) as [->|]; [|by apply IHv].
      apply IHt, strings_only_Set; [done| |done].
      by apply bool_decide_eq_true.
Qed.

(** The [int] counter stays in range over a text of at most [INT_MAX]
    characters. *)
Lemma tokens_no_overflow rest :
  (Z.of_nat (String.length rest) ≤ INT_MAX)%Z →
  (∀ ps, (tokens rest ps).1 ≠ Overflows) ∧
  (∀ key ps, (scan_key rest key ps).1 ≠ Overflows) ∧
  (∀ key value level ps,
     (Z.abs level + Z.of_nat (String.length rest) ≤ INT_MAX)%Z →
     (scan_value rest key value level ps).1 ≠ Overflows).
Proof.
  induction rest as [|c rest IH]; intros Hlen.
  - split; [done|]. split; [done|]. intros key value level ps _.
    cbn [scan_value]. by destruct (negb (level =? 0)%Z).
  - cbn [String.length] in Hlen.
    destruct IH as (IHt & IHk & IHv); [lia|].
    split; [|split].
    + intros ps. cbn [tokens]. apply IHk.
    + intros key ps. cbn [scan_key].
      destruct (Ascii.eqb c "="); [|apply IHk]. apply IHv. cbn. lia.
    + intros key value level ps Hlevel. cbn [scan_value String.length] in *.
      unfold INT_MAX, INT_MIN in *.
      destruct (Ascii.eqb c "[").
      { destruct (Z.eqb_spec level 2147483647); [lia|]. apply IHv. lia. }
      destruct (Ascii.eqb c "]").
      { destruct (Z.eqb_spec level (-2147483648)); [lia|]. apply IHv. lia. }
      destruct (Ascii.eqb c "," && (level =? 0)%Z); [apply IHt|].
      apply IHv. lia.
Qed.

End PrintFacts.

(** * Property sets: properties of [operator>>] and [operator<<] *)

Section PropertyTheorems.

Context {Double : Type} (print_double : Double → string).

Implicit Types ps : PropertySet Double.

(** X9. [operator>>] only accepts a word of the form [[body]]: on any other
    word it throws [MALFORMED_PROPERTY], and the set is left empty, whatever
    it held before. *)
Theorem read_needs_brackets (s : string) :
  (∀ body, s ≠ "[" +:+ body +:+ "]") →
  read_PropertySet (Double := Double) s = (Throws MALFORMED_PROPERTY, ∅).
Proof.
  intros H. unfold read_PropertySet.
  destruct (_ || _ || _) eqn:Htest; [done|].
  destruct (bracket_test_fails s Htest) as [body ->]. by destruct (H body).
Qed.

(** X10. [operator>>] reads [[k1=v1,k2=v2,...]] as the entries it shows,
    bound one after the other from the empty set, for all well-formed
    names (not empty, no [=] after the first character) and values (no
    comma outside brackets, brackets balanced); all the values are stored as
    strings. *)
Theorem read_text (es : list (string * string)) :
  forallb entry_ok es = true →
  read_PropertySet (Double := Double) ("[" +:+ text es +:+ "]")
  = (Returns, bind_all es ∅).
Proof. intros H. rewrite read_bracketed. by apply tokens_text. Qed.





Lemma print_read_strings ps :
  strings_only ps →
  ∃ s, print_PropertySet print_double ps EmptyString = (Returns, s) ∧
       read_PropertySet s = (Returns, ps).
Proof.
  intros (m & -> & Hm)%strings_only_fmap.
  eexists. split.
  - rewrite print_PropertySet_strings. by rewrite string_app_nil_l.
  - rewrite read_bracketed, tokens_text by done.
    by rewrite bind_all_entries.
Qed.

Lemma read_strings_only (s : string) :
  strings_only (read_PropertySet (Double := Double) s).2.
Proof.
  unfold read_PropertySet. destruct (_ || _ || _); [done|].
  by apply tokens_strings_only.
Qed.

(** X13. Whatever the word and whether [operator>>] returns or throws, the
    set it leaves holds only strings, under names that are not empty and
    have no [=] after their first character, each string with no comma
    outside brackets and with balanced brackets. *)
Theorem read_PropertySet_ok (s : string) :
  PropertySet_ok (read_PropertySet (Double := Double) s).2 = true.
Proof. apply PropertySet_ok_spec, read_strings_only. Qed.

(** X14. Round trip from a word: when [operator>>] returns on a word,
    printing the set it built and reading the print again gives that same
    set. *)
Theorem read_print_read (s : string) ps :
  read_PropertySet s = (Returns, ps) →
  ∃ s', print_PropertySet print_double ps EmptyString = (Returns, s') ∧
        read_PropertySet s' = (Returns, ps).
Proof.
  intros Hs. apply print_read_strings.
  pose proof (read_strings_only s) as H. by rewrite Hs in H.
Qed.

(** X15. A throw keeps what was read: when well-formed entries are followed
    by a comma and a text with no [=] to end a name, [operator>>] throws
    [MALFORMED_PROPERTY] and the set holds the entries before it. *)
Theorem read_keeps_earlier (es : list (string * string)) (junk : string) :
  es ≠ [] → forallb entry_ok es = true → key_ok junk = true →
  read_PropertySet (Double := Double)
    ("[" +:+ text es +:+ "," +:+ junk +:+ "]")
  = (Throws MALFORMED_PROPERTY, bind_all es ∅).
Proof.
  intros Hne Hes Hjunk. destruct es as [|[k v] es]; [done|].
  cbn [forallb] in Hes. apply andb_true_iff in Hes as [Hkv Hes].
  replace ("[" +:+ text ((k, v) :: es) +:+ "," +:+ junk +:+ "]")
    with ("[" +:+ (k +:+ "=" +:+ v +:+ text_more es +:+ "," +:+ junk) +:+ "]")
    by (cbn [text]; by rewrite !string_app_assoc).
  rewrite read_bracketed, tokens_text_more_comma by done.
  destruct junk as [|c junk]; [done|]. cbn [tokens].
  by apply scan_key_no_equals.
Qed.

(** X16. A comma after the last entry is accepted: the word
    [[k1=v1,...,kn=vn,]] is read as [[k1=v1,...,kn=vn]]. *)
Theorem read_trailing_comma (es : list (string * string)) :
  es ≠ [] → forallb entry_ok es = true →
  read_PropertySet (Double := Double) ("[" +:+ text es +:+ ",]")
  = (Returns, bind_all es ∅).
Proof.
  intros Hne Hes. destruct es as [|[k v] es]; [done|].
  cbn [forallb] in Hes. apply andb_true_iff in Hes as [Hkv Hes].
  replace ("[" +:+ text ((k, v) :: es) +:+ ",]")
    with ("[" +:+ (k +:+ "=" +:+ v +:+ text_more es +:+ "," +:+ EmptyString)
          +:+ "]")
    by (cbn [text]; by rewrite !string_app_assoc).
  by rewrite read_bracketed, tokens_text_more_comma.
Qed.

(** X17. The [int] counter of bracket levels does not overflow on a word of
    at most [INT_MAX] characters. *)
Theorem read_no_overflow (s : string) :
  (Z.of_nat (String.length s) ≤ INT_MAX)%Z →
  (read_PropertySet (Double := Double) s).1 ≠ Overflows.
Proof.
  intros Hlen. unfold read_PropertySet.
  destruct (_ || _ || _) eqn:Htest; [done|].
  destruct (bracket_test_fails s Htest) as [body ->].
  destruct (bracket_test_passes body) as [_ ->].
  apply tokens_no_overflow.
  change ("[" +:+ body +:+ "]") with (String "[" (body +:+ "]")) in Hlen.
  cbn [String.length] in Hlen. rewrite string_length_app in Hlen. lia.
Qed.

Lemma text_more_cons (e : string * string) (es : list (string * string)) :
  text_more (e :: es) = "," +:+ text (e :: es).
Proof. by destruct e. Qed.

Lemma tokens_text_unbalanced (es : list (string * string)) (k v : string)
    (level : Z) ps :
  forallb entry_ok es = true → key_ok k = true →
  level_after v 0%Z = Some level → level ≠ 0%Z →
  tokens (text (es ++ [(k, v)])) ps
  = (Throws MALFORMED_PROPERTY, bind_all es ps).
Proof.
  intros Hes Hk Hv Hlevel. revert ps.
  induction es as [|[k' v'] es IH]; intros ps.
  - cbn [app text text_more]. change ("=" +:+ ?x) with (String "=" x).
    rewrite tokens_key by done.
    rewrite (scan_value_app _ _ _ _ _ _ _ Hv). cbn [scan_value].
    by destruct (Z.eqb_spec level 0).
  - cbn [forallb] in Hes. apply andb_true_iff in Hes as [Hkv Hes].
    cbn [app text].
    destruct (es ++ [(k, v)]) as [|e l] eqn:E; [by destruct es|].
    rewrite text_more_cons, tokens_comma by done. by apply IH.
Qed.

(** X18. Brackets that do not balance: when the value of an entry leaves
    the bracket level off 0 at the end of the word, [operator>>] throws
    [MALFORMED_PROPERTY], and the set holds the entries before that one. *)
Theorem read_unbalanced (es : list (string * string)) (k v : string)
    (level : Z) :
  forallb entry_ok es = true → key_ok k = true →
  level_after v 0%Z = Some level → level ≠ 0%Z →
  read_PropertySet (Double := Double) ("[" +:+ text (es ++ [(k, v)]) +:+ "]")
  = (Throws MALFORMED_PROPERTY, bind_all es ∅).
Proof.
  intros Hes Hk Hv Hlevel. rewrite read_bracketed.
  by apply (tokens_text_unbalanced es k v level).
Qed.

End PropertyTheorems.

Section PrintTheorems.

Context {Double : Type} (print_double : Double → string).

Implicit Types ps : PropertySet Double.

Lemma print_entries_loop first (es : list (string * PropertyValue Double)) os :
  print_entries first (prod_map id (print_any print_double) <$> es) os
  = print_loop print_double first es os.
Proof.
  revert first os. induction es as [|[k x] es IH]; intros first os; [done|].
  rewrite fmap_cons. cbn [prod_map fst snd id print_entries print_loop].
  unfold print_Property. cbn [fst snd].
  by destruct (print_any _ _ _) as [[]]; rewrite ?IH.
Qed.

(** [operator<<] on a set is [[], the loop over its entries in the order of
    the names, and []]. *)
Lemma print_PropertySet_loop ps os :
  print_PropertySet print_double ps os
  = match print_loop print_double true (entries ps) (os +:+ "[") with
    | (Returns, os') => (Returns, os' +:+ "]")
    | r => r
    end.
Proof.
  unfold print_PropertySet. cbn [print_any].
  by rewrite entries_fmap, print_entries_loop.
Qed.

Lemma print_loop_strings first (es : list (string * string))
    (rest : list (string * PropertyValue Double)) os :
  print_loop print_double first ((prod_map id any_string <$> es) ++ rest) os
  = print_loop print_double (first && bool_decide (es = [])) rest
      (os +:+ (if first then text es else text_more es)).
Proof.
  revert first os. induction es as [|[k v] es IH]; intros first os.
  - rewrite andb_true_r. destruct first; cbn [fmap list_fmap app text text_more];
      by rewrite string_app_nil_r.
  - rewrite fmap_cons. cbn [app print_loop]. unfold print_Property.
    cbn [prod_map fst snd id print_any]. rewrite IH, andb_false_r. f_equal.
    destruct first; cbn [text text_more]; by rewrite !string_app_assoc.
Qed.

(** X19. A value of a type that [operator<<] does not know makes it throw
    [UNKNOWN_PROPERTY_TYPE] once the entries before it, its name and [=]
    are written: the stream keeps them, and receives nothing more, not even
    the closing bracket. *)
Theorem print_unknown_type ps (es : list (string * string)) (k : string)
    (rest : list (string * PropertyValue Double)) (os : ostream) :
  entries ps = (prod_map id any_string <$> es) ++ (k, any_other) :: rest →
  print_PropertySet print_double ps os
  = (Throws UNKNOWN_PROPERTY_TYPE,
     os +:+ "[" +:+ text es +:+
       (if bool_decide (es = []) then EmptyString else ",") +:+ k +:+ "=").
Proof.
  intros Hes. rewrite print_PropertySet_loop, Hes, print_loop_strings.
  cbn [andb print_loop]. unfold print_Property. cbn [fst snd print_any].
  f_equal. destruct (bool_decide (es = []));
    by rewrite !string_app_assoc, ?string_app_nil_l.
Qed.

End PrintTheorems.

(** *** What [operator<<] does to the stream *)

Lemma max_fold_bound (m : gmap string nat) (k : string) (d : nat) :
  m !! k = Some d →
  (d ≤ map_fold (λ _ d acc, Nat.max d acc) 0 m)%nat.
Proof.
  revert k d.
  apply (map_fold_weak_ind (λ r m, ∀ k d, m !! k = Some d → (d ≤ r)%nat)).
  - intros k d. by rewrite lookup_empty.
  - intros i x m' r Hi IH k d.
    destruct (decide (i = k)) as [->|Hne].
    + rewrite lookup_insert_eq. intros [= ->]. lia.
    + rewrite lookup_insert_ne by done. intros Hk%IH. lia.
Qed.

Lemma depth_lookup {Double : Type} (ps : PropertySet Double) k x :
  ps !! k = Some x → (depth x < depth (any_PropertySet ps))%nat.
Proof.
  intros Hk. cbn [depth]. apply Nat.lt_succ_r, (max_fold_bound _ k).
  by rewrite lookup_fmap, Hk.
Qed.

Section StreamFacts.

Context {Double : Type} (print_double : Double → string).

Implicit Types ps : PropertySet Double.
Implicit Types x : PropertyValue Double.

Local Abbreviation appends := (appends print_double).

Lemma print_loop_appends first (es : list (string * PropertyValue Double)) :
  (∀ k x, (k, x) ∈ es → appends x) →
  ∀ os, print_loop print_double first es os
        = ((print_loop print_double first es EmptyString).1,
           os +:+ (print_loop print_double first es EmptyString).2).
Proof.
  revert first. induction es as [|[k x] es IH]; intros first Hes os.
  - cbn. by rewrite string_app_nil_r.
  - assert (appends x) as Hx by (apply (Hes k), list_elem_of_here).
    assert (∀ k' x', (k', x') ∈ es → appends x') as Hes'
      by (intros k' x' Hin; apply (Hes k'); by apply list_elem_of_further).
    cbn [print_loop]. unfold print_Property. cbn [fst snd].
    rewrite (Hx (_ +:+ k +:+ "=")), (Hx ((if first then _ else _) +:+ k +:+ "=")).
    destruct (print_any print_double x EmptyString).1.
    + rewrite (IH false Hes' ((_ +:+ k +:+ "=") +:+ _)).
      rewrite (IH false Hes' (((if first then _ else _) +:+ k +:+ "=") +:+ _)).
      cbn [fst snd]. f_equal.
      destruct first; by rewrite !string_app_assoc, ?string_app_nil_l.
    + cbn [fst snd]. f_equal.
      destruct first; by rewrite !string_app_assoc, ?string_app_nil_l.
    + cbn [fst snd]. f_equal.
      destruct first; by rewrite !string_app_assoc, ?string_app_nil_l.
Qed.

Lemma print_any_appends x : appends x.
Proof.
  remember (depth x) as d eqn:Hd. revert x Hd.
  induction d as [d IH] using lt_wf_ind. intros x -> os.
  destruct x as [n|s|dbl|b|ps|]; unfold written;
    try (cbn [print_any fst snd];
         by rewrite ?string_app_nil_l, ?string_app_nil_r).
  change (print_any print_double (any_PropertySet ps))
    with (print_PropertySet print_double ps).
  rewrite !print_PropertySet_loop.
  assert (∀ k x, (k, x) ∈ entries ps → appends x) as Hes.
  { intros k x Hin%elem_of_entries.
    apply (IH (depth x)); [by apply (depth_lookup ps k)|done]. }
  rewrite (print_loop_appends true _ Hes (os +:+ "[")).
  rewrite (print_loop_appends true _ Hes (EmptyString +:+ "[")).
  destruct (print_loop print_double true (entries ps) EmptyString).1;
    cbn [fst snd]; by rewrite !string_app_assoc, ?string_app_nil_l.
Qed.

Lemma print_loop_written first (es : list (string * PropertyValue Double)) os :
  (∀ k x, (k, x) ∈ es → (print_any print_double x EmptyString).1 = Returns) →
  print_loop print_double first es os
  = (Returns,
     os +:+ (if first then text (prod_map id (written print_double) <$> es)
             else text_more (prod_map id (written print_double) <$> es))).
Proof.
  revert first os. induction es as [|[k x] es IH]; intros first os Hes.
  - destruct first; cbn [fmap list_fmap print_loop text text_more];
      by rewrite string_app_nil_r.
  - rewrite fmap_cons. cbn [print_loop prod_map fst snd id].
    unfold print_Property. cbn [fst snd].
    rewrite print_any_appends, (Hes k x) by apply list_elem_of_here.
    rewrite IH by (intros k' x' Hin; apply (Hes k'); by apply list_elem_of_further).
    f_equal. destruct first; cbn [text text_more]; by rewrite !string_app_assoc.
Qed.

(** X20. [operator<<] only appends: what the stream held stays in front,
    and neither the outcome nor the text added depends on it, for every
    set, sets nested in it included. *)
Theorem print_appends ps (os : ostream) :
  print_PropertySet print_double ps os
  = ((print_PropertySet print_double ps EmptyString).1,
     os +:+ (print_PropertySet print_double ps EmptyString).2).
Proof. apply (print_any_appends (any_PropertySet ps)). Qed.

(** On the word: a set whose values print without a throw is read back
    as the set of the texts written for the values. *)
Lemma print_read_written ps :
  PropertySet_printable_ok print_double ps = true →
  ∃ s, print_PropertySet print_double ps EmptyString = (Returns, s) ∧
       read_PropertySet (Double := Double) s
       = (Returns, (λ x, any_string (written print_double x)) <$> ps).
Proof.
  intros Hps. unfold PropertySet_printable_ok in Hps.
  rewrite forallb_forall in Hps.
  assert (∀ k x, (k, x) ∈ entries ps →
                 (print_any print_double x EmptyString).1 = Returns ∧
                 entry_ok (k, written print_double x) = true) as Hes.
  { intros k x Hin. rewrite entries_Permutation in Hin.
    apply list_elem_of_In, Hps in Hin. cbn [fst snd] in Hin. unfold written.
    by destruct (print_any print_double x EmptyString) as [[] w]. }
  eexists. split.
  - rewrite print_PropertySet_loop, print_loop_written.
    + by rewrite string_app_nil_l.
    + intros k x Hin. by apply (Hes k x).
  - rewrite !string_app_assoc, read_bracketed, tokens_text.
    + by rewrite <- entries_fmap, bind_all_entries, <- map_fmap_compose.
    + apply forallb_forall.
      intros [k v] Hin%list_elem_of_In%list_elem_of_fmap.
      destruct Hin as ([k' x] & [= -> ->] & Hin). by apply (Hes k' x).
Qed.

End StreamFacts.

(** *** Witnesses *)

Lemma read_needs_brackets_witness :
  (∀ body, "a=1" ≠ "[" +:+ body +:+ "]") ∧
  read_PropertySet (Double := unit) "a=1" = (Throws MALFORMED_PROPERTY, ∅).
Proof.
  assert (∀ body, "a=1" ≠ "[" +:+ body +:+ "]") as H.
  { intros body. change ("[" +:+ body +:+ "]") with (String "[" (body +:+ "]")).
    discriminate. }
  split; [exact H|]. apply (read_needs_brackets "a=1"), H.
Defined.

Lemma read_text_witness :
  let es := [("a", "1"); ("b", "[x=2,y=3]"); ("a", "2")] in
  forallb entry_ok es = true ∧
  read_PropertySet (Double := unit) "[a=1,b=[x=2,y=3],a=2]"
  = (Returns, bind_all es ∅).
Proof.
  cbv zeta. split; [by vm_compute|].
  apply (read_text [("a", "1"); ("b", "[x=2,y=3]"); ("a", "2")]).
  by vm_compute.
Defined.


Lemma read_print_read_witness :
  let ps : PropertySet unit :=
    <["a" := any_string "1"]> (<["b" := any_string "2"]> ∅) in
  read_PropertySet "[b=2,a=1,]" = (Returns, ps) ∧
  ∃ s', print_PropertySet no_double ps EmptyString = (Returns, s') ∧
        read_PropertySet s' = (Returns, ps).
Proof.
  cbv zeta. split; [by vm_compute|].
  apply (read_print_read no_double "[b=2,a=1,]"). by vm_compute.
Defined.

Lemma read_keeps_earlier_witness :
  [("a", "1")] ≠ [] ∧ forallb entry_ok [("a", "1")] = true ∧
  key_ok "b" = true ∧
  read_PropertySet (Double := unit) "[a=1,b]"
  = (Throws MALFORMED_PROPERTY, bind_all [("a", "1")] ∅).
Proof.
  split; [done|]. split; [by vm_compute|]. split; [by vm_compute|].
  apply (read_keeps_earlier [("a", "1")] "b"); [done|by vm_compute..].
Defined.

Lemma read_trailing_comma_witness :
  [("a", "1")] ≠ [] ∧ forallb entry_ok [("a", "1")] = true ∧
  read_PropertySet (Double := unit) "[a=1,]"
  = (Returns, bind_all [("a", "1")] ∅).
Proof.
  split; [done|]. split; [by vm_compute|].
  apply (read_trailing_comma [("a", "1")]); [done|by vm_compute].
Defined.

Lemma read_no_overflow_witness :
  (Z.of_nat (String.length "[a=[[]") ≤ INT_MAX)%Z ∧
  (read_PropertySet (Double := unit) "[a=[[]").1 ≠ Overflows.
Proof.
  split; [by vm_compute|].
  apply (read_no_overflow "[a=[[]"). by vm_compute.
Defined.

Lemma print_unknown_type_witness :
  let ps : PropertySet unit :=
    <["c" := any_size_t 3]> (<["b" := any_other]> (<["a" := any_string "1"]> ∅)) in
  entries ps
  = (prod_map id any_string <$> [("a", "1")]) ++ (("b", any_other) :: [("c", any_size_t 3)]) ∧
  print_PropertySet no_double ps EmptyString
  = (Throws UNKNOWN_PROPERTY_TYPE, "[a=1,b=").
Proof.
  cbv zeta. split; [by vm_compute|].
  apply (print_unknown_type no_double _ [("a", "1")] "b" [("c", any_size_t 3)]).
  by vm_compute.
Defined.

Lemma read_unbalanced_witness :
  forallb entry_ok [("a", "1")] = true ∧ key_ok "b" = true ∧
  level_after "[2,c=3" 0%Z = Some 1%Z ∧ 1%Z ≠ 0%Z ∧
  read_PropertySet (Double := unit) "[a=1,b=[2,c=3]"
  = (Throws MALFORMED_PROPERTY, bind_all [("a", "1")] ∅).
Proof.
  split; [by vm_compute|]. split; [by vm_compute|].
  split; [by vm_compute|]. split; [done|].
  apply (read_unbalanced [("a", "1")] "b" "[2,c=3" 1); by vm_compute.
Defined.

(** * Reading from a stream *)

Lemma skip_space_app (lead rest : string) :
  all_space lead = true → ends_word rest = false →
  skip_space (lead +:+ rest) = rest.
Proof.
  intros Hlead Hrest. induction lead as [|c lead IH].
  - rewrite string_app_nil_l. destruct rest as [|c rest]; [done|].
    cbn in *. by rewrite Hrest.
  - rewrite string_app_cons. cbn in *.
    apply andb_true_iff in Hlead as [-> Hlead]. by apply IH.
Qed.

Lemma take_word_app (s rest : string) :
  no_space s = true → ends_word rest = true →
  take_word (s +:+ rest) = (s, rest).
Proof.
  intros Hs Hrest. induction s as [|c s IH].
  - rewrite string_app_nil_l. destruct rest as [|c rest]; [done|].
    cbn in *. by rewrite Hrest.
  - rewrite string_app_cons. cbn in *.
    apply andb_true_iff in Hs as [->%negb_true_iff Hs]. by rewrite IH.
Qed.

(** The word between white space is what [operator>>] works on, and what
    follows it stays in the stream. *)
Lemma read_stream_word {Double : Type} (lead s rest : string) :
  all_space lead = true → no_space s = true → s ≠ EmptyString →
  ends_word rest = true →
  read_stream (Double := Double) (lead +:+ s +:+ rest)
  = (read_PropertySet s, rest).
Proof.
  intros Hlead Hs Hne Hrest. unfold read_stream.
  rewrite skip_space_app, take_word_app; try done.
  destruct s as [|c s]; [done|]. rewrite string_app_cons. cbn in *.
  by apply andb_true_iff in Hs as [->%negb_true_iff _].
Qed.

Section StreamTheorems.

Context {Double : Type} (print_double : Double → string).

Implicit Types ps : PropertySet Double.

(** X24. Round trip through streams: the text that [operator<<] writes for
    a set of well-formed strings under well-formed names, if it has no white
    space, is read back by [operator>>] as the same set, from a stream
    where white space may come before it and where it is followed by white
    space or by the end; what follows it is left in the stream. *)
Theorem read_stream_print ps (s lead rest : string) :
  PropertySet_ok ps = true →
  print_PropertySet print_double ps EmptyString = (Returns, s) →
  no_space s = true → all_space lead = true → ends_word rest = true →
  read_stream (lead +:+ s +:+ rest) = (Returns, ps, rest).
Proof.
  intros Hps Hs Hns Hlead Hrest.
  destruct (print_read_strings print_double ps) as (s' & Hs' & Hread);
    [by apply PropertySet_ok_spec|].
  rewrite Hs in Hs'. injection Hs' as <-.
  rewrite read_stream_word, Hread; try done.
  intros ->. by vm_compute in Hread.
Qed.

(** X21. [operator>>] stores every value as a string, and the types are
    not recovered: when the text that [operator<<] writes for a set whose
    values print without a throw (integers, strings, doubles, booleans,
    sets of such values) has no white space, [operator>>] reads it from a
    stream, white space before it and white space or the end after it, as
    the set of the texts written for the values, the names being well
    formed and those texts well-formed values; what follows is left in the
    stream. *)
Theorem read_stream_print_any ps (s lead rest : string) :
  PropertySet_printable_ok print_double ps = true →
  print_PropertySet print_double ps EmptyString = (Returns, s) →
  no_space s = true → all_space lead = true → ends_word rest = true →
  read_stream (Double := Double) (lead +:+ s +:+ rest)
  = (Returns, (λ x, any_string (written print_double x)) <$> ps, rest).
Proof.
  intros Hps Hs Hns Hlead Hrest.
  destruct (print_read_written print_double ps Hps) as (s' & Hs' & Hread).
  rewrite Hs in Hs'. injection Hs' as <-.
  rewrite read_stream_word, Hread; try done.
  intros ->. by vm_compute in Hread.
Qed.

End StreamTheorems.

Lemma read_stream_print_witness :
  let ps : PropertySet unit :=
    <["b" := any_string "[x=2]"]> (<["a" := any_string "1"]> ∅) in
  PropertySet_ok ps = true ∧
  print_PropertySet no_double ps EmptyString = (Returns, "[a=1,b=[x=2]]") ∧
  no_space "[a=1,b=[x=2]]" = true ∧ all_space "  " = true ∧
  ends_word " [c=3]" = true ∧
  read_stream "  [a=1,b=[x=2]] [c=3]" = (Returns, ps, " [c=3]").
Proof.
  cbv zeta. repeat (split; [by vm_compute|]).
  apply (read_stream_print no_double _ "[a=1,b=[x=2]]" "  " " [c=3]");
    by vm_compute.
Defined.

Lemma read_stream_print_any_witness :
  let ps : PropertySet unit :=
    <["verbose" := any_size_t 3]> (<["damping" := any_bool false]>
      (<["inner" := any_PropertySet (<["tol" := any_string "1e-9"]> ∅)]> ∅)) in
  PropertySet_printable_ok no_double ps = true ∧
  print_PropertySet no_double ps EmptyString
  = (Returns, "[damping=0,inner=[tol=1e-9],verbose=3]") ∧
  no_space "[damping=0,inner=[tol=1e-9],verbose=3]" = true ∧
  all_space " " = true ∧ ends_word EmptyString = true ∧
  read_stream (Double := unit) " [damping=0,inner=[tol=1e-9],verbose=3]"
  = (Returns,
     <["verbose" := any_string "3"]> (<["damping" := any_string "0"]>
       (<["inner" := any_string "[tol=1e-9]"]> ∅)),
     EmptyString).
Proof.
  cbv zeta. repeat (split; [by vm_compute|]).
  pose proof (read_stream_print_any no_double
    (<["verbose" := any_size_t 3]> (<["damping" := any_bool false]>
      (<["inner" := any_PropertySet (<["tol" := any_string "1e-9"]> ∅)]> ∅)))
    "[damping=0,inner=[tol=1e-9],verbose=3]" " " EmptyString) as H.
  rewrite string_app_nil_r in H. cbv [String.append] in H.
  rewrite H by by vm_compute. by vm_compute.
Defined.

(** * The state of each variable in a decoded index *)

Lemma inhabited_states_app vs1 vs2 :
  inhabited_states (vs1 ++ vs2) = inhabited_states vs1 && inhabited_states vs2.
Proof. apply forallb_app. Qed.

Lemma decode_map_middle (before after : VarSet) (n : Var) (i : N) :
  NoDup (labels (before ++ n :: after)) →
  decode_map (before ++ n :: after) i !! label n
  = Some ((i / prod_states before) mod states n).
Proof.
  revert i. induction before as [|m before IH]; intros i Hnd.
  - cbn [app decode_map prod_states]. by rewrite lookup_insert_eq, N.div_1_r.
  - cbn [app] in Hnd. unfold labels in Hnd. rewrite fmap_cons in Hnd.
    apply NoDup_cons in Hnd as [Hm Hnd].
    cbn [app decode_map prod_states].
    rewrite lookup_insert_ne.
    + rewrite IH by done. by rewrite N.Div0.div_div.
    + intros Heq. apply Hm. rewrite Heq, fmap_app, fmap_cons.
      apply elem_of_app. right. apply list_elem_of_here.
Qed.

(** X25. The formula of the documentation of [calcStates]: in the
    assignment returned for the index [i], the state of a variable is [i]
    modulo the product of the numbers of states up to and including that
    variable, divided by the product of the numbers of states of the
    variables before it. *)
Theorem calcStates_state_formula (before after : VarSet) (n : Var) (i : N)
    (a : Assignment) :
  ascending (before ++ n :: after) = true →
  calcStates (before ++ n :: after) i = Ok a →
  a !! label n
  = Some ((i mod (prod_states before * states n)) / prod_states before).
Proof.
  intros Hasc Ha. apply ascending_NoDup in Hasc.
  destruct (inhabited_states (before ++ n :: after)) eqn:Hinh.
  - unfold calcStates in Ha.
    rewrite calcStates_loop_decode_map in Ha by done.
    cbn [mbind result_bind] in Ha.
    destruct (i / prod_states (before ++ n :: after) =? 0); [|done].
    cbn in Ha. injection Ha as <-. rewrite (right_id_L ∅ (∪)).
    rewrite decode_map_middle by done. f_equal.
    rewrite inhabited_states_app in Hinh.
    apply andb_true_iff in Hinh as [Hb%prod_states_pos _].
    rewrite N.Div0.mod_mul_r.
    rewrite N.add_comm, (N.mul_comm (prod_states before)), N.div_add_l by lia.
    rewrite (N.div_small (i mod _)) by (apply N.mod_lt; lia). lia.
  - unfold calcStates in Ha. by rewrite calcStates_loop_uninhabited in Ha.
Qed.

Lemma calcStates_state_formula_witness :
  ∃ a, ascending ([x0] ++ x1 :: [x2]) = true ∧
       calcStates ([x0] ++ x1 :: [x2]) 11 = Ok a ∧
       a !! label x1 = Some 2.
Proof.
  exists (<[0%Z := 1]> (<[1%Z := 2]> (<[2%Z := 1]> ∅))).
  split; [reflexivity|]. split; [by vm_compute|].
  apply (calcStates_state_formula [x0] [x2] x1 11); [reflexivity|by vm_compute].
Defined.
